(** * Traffic-accident advisor: retrieval pipeline, shallow embedding

    The definitions follow the Python sources of the repository:
    - [src/rag_system/enhanced_advisor.py]   keyword matcher, quick diagnosis
    - [src/rag_system/simple_advisor.py]     quick diagnosis
    - [src/rag_system/advisor.py]            [get_advice]
    - [src/rag_system/document_processor.py] normalizer, index build, query
    - [fix_vectordb.py]                      safe build and safe load
    - [src/multimodal/gemini_client.py]      the Gemini client and its wait
    - [config/config.py]                     the names [Config] binds
    - [src/multimodal/image_analyzer.py]     [get_analysis_summary]
    - [src/utils.py]                         [clean_text], [extract_fault_ratio]
    - [main.py]                              [build_vectordb], command-line chat

    Python values are modelled as the interpreter has them: a [str] is a
    sequence of code points, a JSON object is a finite map from keys to
    values, a list of objects is a store of objects addressed by position
    (the position plays the role of the object's identity), an exception is
    a value of [exn] carried by [result].  External services (completion,
    embedding, the persisted vector store, the clock) are explicit inputs. *)

From Stdlib Require Import ZArith NArith List Bool Ascii String Lia.
From Stdlib Require Import DecimalString DecimalPos.
From stdpp Require Import gmap strings list fin_maps sorting.

Local Open Scope Z_scope.

(** ** Python strings *)

Module Py.

(** A [str] is a sequence of Unicode code points. *)
Definition str : Type := list N.

(** Source literals are written as UTF-8 text and decoded once. *)
Fixpoint utf8_decode (bs : list N) : str :=
  match bs with
  | [] => []
  | b0 :: r0 =>
    if (b0 <? 128)%N then b0 :: utf8_decode r0
    else match r0 with
    | [] => [b0]
    | b1 :: r1 =>
      if (b0 <? 224)%N then
        ((b0 - 192) * 64 + (b1 - 128))%N :: utf8_decode r1
      else match r1 with
      | [] => [b0; b1]
      | b2 :: r2 =>
        if (b0 <? 240)%N then
          ((b0 - 224) * 4096 + (b1 - 128) * 64 + (b2 - 128))%N
            :: utf8_decode r2
        else match r2 with
        | [] => [b0; b1; b2]
        | b3 :: r3 =>
          ((b0 - 240) * 262144 + (b1 - 128) * 4096
             + (b2 - 128) * 64 + (b3 - 128))%N :: utf8_decode r3
        end
      end
    end
  end.

Definition u (s : string) : str :=
  utf8_decode (List.map N_of_ascii (list_ascii_of_string s)).

(** [s.startswith(p)] *)
Fixpoint startswith (p s : str) : bool :=
  match p, s with
  | [], _ => true
  | _ :: _, [] => false
  | a :: p', b :: s' => (a =? b)%N && startswith p' s'
  end.

(** [sub in s] on strings: [sub] occurs as a contiguous run of [s]. *)
Fixpoint str_in (sub s : str) : bool :=
  startswith sub s ||
  match s with
  | [] => false
  | _ :: s' => str_in sub s'
  end.

(** [str.isspace] on one code point (the characters [str.strip] removes). *)
Definition isspace (c : N) : bool :=
  ((9 <=? c) && (c <=? 13) || (28 <=? c) && (c <=? 32)
   || (c =? 133) || (c =? 160) || (c =? 5760)
   || (8192 <=? c) && (c <=? 8202) || (c =? 8232) || (c =? 8233)
   || (c =? 8239) || (c =? 8287) || (c =? 12288))%N.

Fixpoint lstrip (s : str) : str :=
  match s with
  | [] => []
  | c :: s' => if isspace c then lstrip s' else s
  end.

Definition rstrip (s : str) : str := rev (lstrip (rev s)).

(** [s.strip()] *)
Definition strip (s : str) : str := rstrip (lstrip s).

(** [sep.join(parts)] *)
Fixpoint join (sep : str) (parts : list str) : str :=
  match parts with
  | [] => []
  | [p] => p
  | p :: rest => p ++ sep ++ join sep rest
  end.

(** [str(n)] for an integer. *)
Definition str_of_int (z : Z) : str :=
  List.map N_of_ascii
    (list_ascii_of_string (NilZero.string_of_int (Z.to_int z))).

End Py.

Abbreviation str := Py.str.

(** ** Values, objects, exceptions *)

(** The values a case record holds: text, or an integer (the score the
    matcher stores). *)
Inductive value : Type :=
  | VStr (s : str)
  | VInt (z : Z).

(** A JSON object / Python [dict] with string keys. *)
Abbreviation dict := (gmap string value).

(** [str(v)], as used by f-string interpolation. *)
Definition str_of_value (v : value) : str :=
  match v with
  | VStr s => s
  | VInt z => Py.str_of_int z
  end.

Inductive exn : Type :=
  | KeyError (key : string)
  | TypeError
  | Exception (msg : str).

(** [str(e)] *)
Definition exn_str (e : exn) : str :=
  match e with
  | KeyError k => Py.u "'" ++ Py.u k ++ Py.u "'"
  | TypeError => Py.u "TypeError"
  | Exception msg => msg
  end.

Inductive result (A : Type) : Type :=
  | Ok (a : A)
  | Err (e : exn).
Arguments Ok {A} a.
Arguments Err {A} e.

Definition rbind {A B} (r : result A) (k : A -> result B) : result B :=
  match r with
  | Ok a => k a
  | Err e => Err e
  end.

#[global] Instance result_bind : MBind result := fun A B k r => rbind r k.
#[global] Instance result_ret : MRet result := @Ok.

(** [d[key]] : raises [KeyError] when the key is absent. *)
Definition getitem (d : dict) (key : string) : result value :=
  match d !! key with
  | Some v => Ok v
  | None => Err (KeyError key)
  end.

(** ** Keyword matcher ([EnhancedTrafficAdvisor._search_similar_cases]) *)

(** The vocabulary, in source order. *)
Definition keywords : list str :=
  Eval vm_compute in
  List.map Py.u
    ["직진"; "좌회전"; "우회전"; "신호등"; "교차로"; "녹색"; "적색"; "황색";
     "비보호"; "화살표"; "점멸"; "후진"; "차선변경"; "주차장"]%string.

Definition sp : str := [32%N].

(** [[kw for kw in keywords if kw in user_input]] *)
Definition user_keywords_of (user_input : str) : list str :=
  List.filter (fun kw => Py.str_in kw user_input) keywords.

(** [f"{case['vehicle_A_situation']} {case['vehicle_B_situation']} {case['accident_description']}"] *)
Definition case_text (case : dict) : result str :=
  a ← getitem case "vehicle_A_situation";
  b ← getitem case "vehicle_B_situation";
  d ← getitem case "accident_description";
  Ok (str_of_value a ++ sp ++ str_of_value b ++ sp ++ str_of_value d).

(** The inner loop: [score += 1] for each user keyword found in the text. *)
Fixpoint count_score (user_keywords : list str) (text : str) (score : Z) : Z :=
  match user_keywords with
  | [] => score
  | keyword :: rest =>
    count_score rest text (if Py.str_in keyword text then score + 1 else score)
  end.

(** The loop [for case in self.case_data].  [store] is [self.case_data]: the
    records are shared objects, so the assignment
    [case['similarity_score'] = score] updates the record in the store, and
    [similar_cases.append(case)] appends a reference to it (its position).
    [n] counts the records still to visit, [i] is the iterator's position.
    A [KeyError] leaves the loop with the updates made so far. *)
Fixpoint search_loop (user_keywords : list str) (n i : nat)
    (store : list dict) (similar_cases : list nat)
    : list dict * result (list nat) :=
  match n with
  | O => (store, Ok similar_cases)
  | S n' =>
    match store !! i with
    | None => (store, Ok similar_cases)
    | Some case =>
      match case_text case with
      | Err e => (store, Err e)
      | Ok text =>
        let score := count_score user_keywords text 0 in
        if 0 <? score then
          search_loop user_keywords n' (S i)
            (<[i := <["similarity_score" := VInt score]> case]> store)
            (similar_cases ++ [i])
        else
          search_loop user_keywords n' (S i) store similar_cases
      end
    end
  end.

(** [key=lambda x: x['similarity_score']], read through the reference. *)
Definition sort_key (store : list dict) (ref : nat) : result Z :=
  match store !! ref with
  | None => Err (Exception (Py.u "dangling reference"))
  | Some case =>
    v ← getitem case "similarity_score";
    match v with
    | VInt z => Ok z
    | VStr _ => Err TypeError
    end
  end.

(** [list.sort(key=..., reverse=True)]: the keys are computed once per
    element, the sort is stable, and [reverse=True] keeps the original
    order of elements with equal keys. *)
Fixpoint keyed (store : list dict) (refs : list nat) : result (list (Z * nat)) :=
  match refs with
  | [] => Ok []
  | r :: rest =>
    k ← sort_key store r;
    ks ← keyed store rest;
    Ok ((k, r) :: ks)
  end.

Fixpoint insert_desc (x : Z * nat) (l : list (Z * nat)) : list (Z * nat) :=
  match l with
  | [] => [x]
  | y :: l' => if fst y <=? fst x then x :: l else y :: insert_desc x l'
  end.

Definition sort_desc (l : list (Z * nat)) : list (Z * nat) :=
  foldr insert_desc [] l.

Definition sort_by_score_reverse (store : list dict) (refs : list nat)
    : result (list nat) :=
  ks ← keyed store refs;
  Ok (List.map snd (sort_desc ks)).

(** [_search_similar_cases(self, user_input)]: takes [self.case_data] and
    returns it after the call together with the result, a list of
    references into it (or the exception raised). *)
Definition _search_similar_cases (case_data : list dict) (user_input : str)
    : list dict * result (list nat) :=
  match case_data with
  | [] => (case_data, Ok [])
  | _ =>
    let user_keywords := user_keywords_of user_input in
    match user_keywords with
    | [] => (case_data, Ok [])
    | _ =>
      match search_loop user_keywords (length case_data) 0 case_data [] with
      | (store, Err e) => (store, Err e)
      | (store, Ok similar_cases) =>
        (store, sorted ← sort_by_score_reverse store similar_cases;
                Ok (firstn 3 sorted))
      end
    end
  end.

(** The records a result refers to. *)
Definition deref (store : list dict) (refs : list nat) : list dict :=
  omap (fun r => store !! r) refs.

(** A record as the crawler writes it. *)
Definition mk_case (case_id a b d ratio : string) : dict :=
  <["case_id" := VStr (Py.u case_id)]>
  (<["vehicle_A_situation" := VStr (Py.u a)]>
  (<["vehicle_B_situation" := VStr (Py.u b)]>
  (<["accident_description" := VStr (Py.u d)]>
  (<["fault_ratio" := VStr (Py.u ratio)]> ∅)))).

Definition corpus_A1 : list dict :=
  [mk_case "A1" "직진" "좌회전" "교차로 충돌" "30:70"].

Definition query_left_turn : str := Py.u "좌회전 중 충돌".

(** ** Record normalizer ([DocumentProcessor.load_accident_cases]) *)

(** A langchain [Document]. *)
Record Document : Type := mkDocument {
  page_content : str;
  metadata : dict
}.

Inductive log_entry : Type :=
  | LogInfo (msg : str)
  | LogWarning (msg : str)
  | LogError (msg : str).

Definition nl : str := [10%N].

(** The f-string of the loop body, then [.strip()]; the interpolations are
    evaluated left to right, so the first missing key raises. *)
Definition case_content (case : dict) : result str :=
  case_id ← getitem case "case_id";
  a ← getitem case "vehicle_A_situation";
  b ← getitem case "vehicle_B_situation";
  d ← getitem case "accident_description";
  ratio ← getitem case "fault_ratio";
  Ok (Py.strip
    (nl ++ Py.u "사고 유형: " ++ str_of_value case_id ++ nl
     ++ nl ++ Py.u "차량 A 상황:" ++ nl ++ str_of_value a ++ nl
     ++ nl ++ Py.u "차량 B 상황:" ++ nl ++ str_of_value b ++ nl
     ++ nl ++ Py.u "사고 설명:" ++ nl ++ str_of_value d ++ nl
     ++ nl ++ Py.u "과실 비율: " ++ str_of_value ratio ++ nl
     ++ Py.u "                ")).

Definition case_document (case : dict) : result Document :=
  content ← case_content case;
  case_id ← getitem case "case_id";
  ratio ← getitem case "fault_ratio";
  Ok (mkDocument content
        (<["source" := VStr (Py.u "accident_case")]>
        (<["case_id" := case_id]>
        (<["fault_ratio" := ratio]>
        (<["type" := VStr (Py.u "판례")]> ∅))))).

(** [for case in cases: ... documents.append(doc)] *)
Fixpoint load_loop (cases : list dict) (documents : list Document)
    : result (list Document) :=
  match cases with
  | [] => Ok documents
  | case :: rest =>
    doc ← case_document case;
    load_loop rest (documents ++ [doc])
  end.

(** [load_accident_cases(self, json_file_path)].  [file] is what
    [json.load] gives for the path (or the exception of [open]/[json.load]);
    the result is the returned list and the lines logged. *)
Definition load_accident_cases (file : result (list dict))
    : list Document * list log_entry :=
  match (cases ← file; load_loop cases []) with
  | Ok documents =>
    (documents,
     [LogInfo (Py.u "교통사고 판례 "
               ++ Py.str_of_int (Z.of_nat (length documents))
               ++ Py.u "건 로드 완료")])
  | Err e => ([], [LogError (Py.u "판례 로드 실패: " ++ exn_str e)])
  end.

(** A record without its description, as a partial crawl leaves it. *)
Definition case_no_description (case_id a b ratio : string) : dict :=
  delete "accident_description" (mk_case case_id a b EmptyString ratio).

Definition corpus_partial : list dict :=
  [mk_case "A1" "직진" "좌회전" "교차로 충돌" "30:70";
   case_no_description "A2" "후진" "직진" "100:0";
   mk_case "A3" "우회전" "직진" "신호등 교차로" "60:40"].

(** ** Chunker

    [DocumentProcessor.__init__] builds
    [RecursiveCharacterTextSplitter(chunk_size, chunk_overlap,
    length_function=len, separators=...)] with the separators paragraph
    break, line break, space and the empty string, in this order; the
    definitions below are that langchain class with the options the
    constructor call leaves at their defaults ([keep_separator=True],
    [strip_whitespace=True], [is_separator_regex=False]).  Method names
    are the library's. *)

Module Splitter.

Definition len {A} (l : list A) : Z := Z.of_nat (length l).

(** [re.split("(" + re.escape(sep) + ")", text)] for a non-empty [sep]:
    the pieces between the leftmost non-overlapping occurrences, with the
    separators between them.  [skip] counts the characters of a matched
    occurrence still to pass, [cur] is the current piece, reversed. *)
Fixpoint re_split (sep text : str) (skip : nat) (cur : str) : list str :=
  match text with
  | [] => [rev cur]
  | c :: rest =>
    match skip with
    | S k => re_split sep rest k cur
    | O =>
      if Py.startswith sep text
      then rev cur :: sep :: re_split sep rest (length sep - 1) []
      else re_split sep rest 0 (c :: cur)
    end
  end.

(** [[_splits[i] + _splits[i + 1] for i in range(1, len(_splits), 2)]]
    over [_splits[1:]]; a trailing unpaired element is the one
    [splits += _splits[-1:]] adds. *)
Fixpoint pair_up (l : list str) : list str :=
  match l with
  | a :: b :: rest => (a ++ b) :: pair_up rest
  | _ => l
  end.

Definition nonempty {A} (l : list A) : bool :=
  match l with [] => false | _ => true end.

(** [_split_text_with_regex(text, separator, keep_separator=True)] *)
Definition _split_text_with_regex (text separator : str) : list str :=
  let splits :=
    match separator with
    | [] => List.map (fun c => [c]) text
    | _ =>
      match re_split separator text 0 [] with
      | [] => []
      | first :: others => first :: pair_up others
      end
    end in
  List.filter nonempty splits.

(** [_join_docs]: [None] for a chunk that is empty after stripping. *)
Definition _join_docs (docs : list str) (separator : str) : option str :=
  let text := Py.strip (Py.join separator docs) in
  match text with
  | [] => None
  | _ => Some text
  end.

Definition append_doc (docs : list str) (doc : option str) : list str :=
  match doc with
  | Some d => docs ++ [d]
  | None => docs
  end.

Section Config.

Variable chunk_size chunk_overlap : Z.

(** The [while] loop of [_merge_splits], dropping pieces from the front of
    [current_doc] until the overlap budget is met.  [total] is 0 when
    [current_doc] is empty, and the loop stops there ([chunk_overlap] is
    not negative). *)
Fixpoint drop_front (separator_len _len total : Z) (current_doc : list str)
    : Z * list str :=
  match current_doc with
  | [] => (total, current_doc)
  | d0 :: rest =>
    if (chunk_overlap <? total)
       || ((chunk_size <? total + _len + separator_len) && (0 <? total))
    then drop_front separator_len _len
           (total - (len d0
                     + (if (1 <? len current_doc) then separator_len else 0)))
           rest
    else (total, current_doc)
  end.

(** The [for d in splits] loop of [_merge_splits]. *)
Fixpoint merge_loop (separator : str) (splits : list str)
    (docs : list str) (current_doc : list str) (total : Z)
    : list str * list str * Z :=
  match splits with
  | [] => (docs, current_doc, total)
  | d :: rest =>
    let _len := len d in
    let separator_len := len separator in
    let '(docs1, current_doc1, total1) :=
      if chunk_size <?
           total + _len + (if nonempty current_doc then separator_len else 0)
      then
        match current_doc with
        | [] => (docs, current_doc, total)
        | _ =>
          let docs' := append_doc docs (_join_docs current_doc separator) in
          let '(total', current_doc') :=
            drop_front separator_len _len total current_doc in
          (docs', current_doc', total')
        end
      else (docs, current_doc, total) in
    let current_doc2 := current_doc1 ++ [d] in
    merge_loop separator rest docs1 current_doc2
      (total1 + _len + (if (1 <? len current_doc2) then separator_len else 0))
  end.

(** [_merge_splits(splits, separator)] *)
Definition _merge_splits (splits : list str) (separator : str) : list str :=
  let '(docs, current_doc, _) := merge_loop separator splits [] [] 0 in
  append_doc docs (_join_docs current_doc separator).

Definition flush (final_chunks _good_splits : list str) : list str :=
  match _good_splits with
  | [] => final_chunks
  | _ => final_chunks ++ _merge_splits _good_splits []
  end.

(** The [for s in splits] loop of [_split_text]; [_separator] is the
    empty string since the separators are kept in the pieces.  [recurse] is
    [_split_text(., new_separators)], absent when [new_separators] is
    empty. *)
Fixpoint split_loop (recurse : option (str -> list str)) (splits : list str)
    (final_chunks _good_splits : list str) : list str :=
  match splits with
  | [] => flush final_chunks _good_splits
  | s :: rest =>
    if len s <? chunk_size
    then split_loop recurse rest final_chunks (_good_splits ++ [s])
    else
      let final1 := flush final_chunks _good_splits in
      let final2 :=
        match recurse with
        | None => final1 ++ [s]
        | Some f => final1 ++ f s
        end in
      split_loop recurse rest final2 []
  end.

(** [_split_text(text, separators)]: the first separator that is empty or
    occurs in the text is used (the last one when none does), and pieces
    that are still too long are split with the separators after it. *)
Fixpoint _split_text (separators : list str) (text : str) {struct separators}
    : list str :=
  match separators with
  | [] => []
  | _s :: later =>
    if negb (nonempty _s) then
      split_loop None (_split_text_with_regex text _s) [] []
    else if Py.str_in _s text then
      split_loop
        (match later with [] => None | _ => Some (_split_text later) end)
        (_split_text_with_regex text _s) [] []
    else
      match later with
      | [] => split_loop None (_split_text_with_regex text _s) [] []
      | _ => _split_text later text
      end
  end.

End Config.

(** The configured separators: paragraph break, line break, space, empty. *)
Definition separators : list str := [[10; 10]; [10]; [32]; []]%N.

Definition split_text (chunk_size chunk_overlap : Z) (text : str) : list str :=
  _split_text chunk_size chunk_overlap separators text.

(** [split_documents]: every chunk carries a copy of its document's
    metadata. *)
Definition split_documents (chunk_size chunk_overlap : Z)
    (documents : list Document) : list Document :=
  flat_map
    (fun doc =>
       List.map (fun chunk => mkDocument chunk (metadata doc))
         (split_text chunk_size chunk_overlap (page_content doc)))
    documents.

End Splitter.

(** [DocumentProcessor.text_splitter] with the constructor's defaults
    [chunk_size=1000], [chunk_overlap=200]. *)
Definition text_splitter_split_text : str -> list str :=
  Splitter.split_text 1000 200.

Definition text_splitter_split_documents : list Document -> list Document :=
  Splitter.split_documents 1000 200.

(** A text of 999 letters, one space and 500 letters. *)
Definition text_999_500 : str :=
  repeat 97%N 999 ++ [32%N] ++ repeat 98%N 500.

(** ** Embedding index

    The persisted index is the external Chroma store under
    [persist_directory]; the repository reaches it through
    [Chroma.from_documents], [Chroma(...)] and
    [similarity_search_with_score] only.  The store is modelled by what
    those calls do to a named collection: [from_documents] opens the
    collection (creating it when absent) and adds one entry per chunk
    under a fresh id, since the repository passes no [ids]; nothing in the
    repository deletes or replaces a collection. *)

Section EmbeddingIndex.

(** The embedding service and the similarity metric are external. *)
Variable vector : Type.
Variable embed_documents : list str -> result (list vector).
Variable embed_query : str -> result vector.
Variable distance : vector -> vector -> Z.

Record Entry : Type := mkEntry {
  entry_document : Document;
  entry_vector : vector
}.

(** What a failed [from_documents] leaves in the collection is decided
    inside the store, not by the repository. *)
Variable after_failure : list Entry -> list Document -> list Entry.

(** The directory [persist_directory]: the collections by name, whether
    the files can be opened, and [backup_chunks.json]. *)
Record PersistDir : Type := mkPersistDir {
  collections : gmap string (list Entry);
  corrupted : bool;
  backup_chunks : option (list Document)
}.

Definition collection (dir : PersistDir) (name : string) : list Entry :=
  default [] (collections dir !! name).

Definition set_collection (dir : PersistDir) (name : string)
    (entries : list Entry) : PersistDir :=
  mkPersistDir (<[name := entries]> (collections dir)) (corrupted dir)
    (backup_chunks dir).

(** Chroma's default collection name. *)
Definition default_collection : string := "langchain".

(** [Chroma.from_documents(documents=chunks, embedding=...,
    persist_directory=..., collection_name=name)] *)
Definition from_documents (dir : PersistDir) (name : string)
    (chunks : list Document) : PersistDir * result unit :=
  if corrupted dir then (dir, Err (Exception (Py.u "cannot open store")))
  else
    let old := collection dir name in
    match embed_documents (List.map page_content chunks) with
    | Err e => (set_collection dir name (after_failure old chunks), Err e)
    | Ok vectors =>
      if (length vectors =? length chunks)%nat
      then (set_collection dir name
              (old ++ zip_with mkEntry chunks vectors), Ok tt)
      else (set_collection dir name (after_failure old chunks),
            Err (Exception (Py.u "embedding count mismatch")))
    end.


(** [FixedDocumentProcessor.build_vectorstore_safe(documents)]: on a
    failure the chunks are written to [backup_chunks.json]. *)
Definition build_vectorstore_safe (dir : PersistDir)
    (vectorstore : option string) (documents : list Document)
    : PersistDir * option string * bool :=
  match documents with
  | [] => (dir, vectorstore, false)
  | _ =>
    let chunks := text_splitter_split_documents documents in
    match from_documents dir "traffic_accidents" chunks with
    | (dir', Ok _) => (dir', Some "traffic_accidents"%string, true)
    | (dir', Err e) =>
      (mkPersistDir (collections dir') (corrupted dir') (Some chunks),
       vectorstore, false)
    end
  end.

(** [DocumentProcessor.load_vectorstore()] *)
Definition load_vectorstore (dir : PersistDir) : option string :=
  if corrupted dir then None else Some default_collection.

Fixpoint insert_asc {A} (x : Z * A) (l : list (Z * A)) : list (Z * A) :=
  match l with
  | [] => [x]
  | y :: l' => if fst x <=? fst y then x :: l else y :: insert_asc x l'
  end.

(** [similarity_search_with_score(query, k)]: the [k] entries nearest to
    the query, nearest first. *)
Definition similarity_search_with_score (entries : list Entry)
    (query : str) (k : nat) : result (list (Document * Z)) :=
  q ← embed_query query;
  Ok (firstn k
        (List.map (fun p => (snd p, fst p))
           (foldr insert_asc []
              (List.map
                 (fun e => (distance q (entry_vector e), entry_document e))
                 entries)))).

Record SearchHit : Type := mkSearchHit {
  hit_content : str;
  hit_metadata : dict;
  hit_similarity_score : Z
}.

(** [DocumentProcessor.search_similar_cases(query, k)] *)
Definition search_similar_cases (dir : PersistDir)
    (vectorstore : option string) (query : str) (k : nat)
    : option string * list SearchHit :=
  let vectorstore' :=
    match vectorstore with
    | Some name => Some name
    | None => load_vectorstore dir
    end in
  match vectorstore' with
  | None => (vectorstore', [])
  | Some name =>
    if corrupted dir then (vectorstore', [])
    else
      match similarity_search_with_score (collection dir name) query k with
      | Ok results =>
        (vectorstore',
         List.map
           (fun r => mkSearchHit (page_content (fst r)) (metadata (fst r))
                       (snd r))
           results)
      | Err _ => (vectorstore', [])
      end
  end.

End EmbeddingIndex.

(** ** Advisors *)

(** A response dictionary: the keys every advisor returns, and the
    optional ones. *)
Record SourceDocument : Type := mkSourceDocument {
  sd_content : str;
  sd_metadata : dict
}.

Record Response : Type := mkResponse {
  answer : str;
  type_ : option str;
  status : str;
  error : option str;
  source_documents : option (list SourceDocument);
  similar_cases : option (list nat)
}.

Definition apology : str :=
  Py.u "죄송합니다. 일시적인 오류가 발생했습니다. 다시 시도해주세요.".

Definition st_success : str := Py.u "success".
Definition st_error : str := Py.u "error".

(** *** [TrafficAccidentAdvisor.get_advice] *)

(** What the retrieval chain returns: ["answer"], and ["source_documents"]
    when present. *)
Record QAResult : Type := mkQAResult {
  qa_answer : option str;
  qa_source_documents : option (list Document)
}.

Section Advisor.

(** The chain built over the vector store's retriever, and the plain
    completion call, are external. *)
Variable qa_chain_call : str -> result QAResult.
Variable llm_invoke : str -> result str.

Definition general_prompt (question : str) : str :=
  nl ++ Py.u "당신은 교통사고 전문 자문사입니다." ++ nl
  ++ Py.u "다음 질문에 대해 일반적인 교통법규와 상식선에서 조언해주세요." ++ nl
  ++ nl ++ Py.u "질문: " ++ question ++ nl
  ++ nl ++ Py.u "**주의**: 정확한 법률 자문을 위해서는 전문 변호사와 상담이 필요합니다."
  ++ nl.

(** [doc.page_content[:300] + "..."] *)
Definition preview (doc : Document) : SourceDocument :=
  mkSourceDocument (firstn 300 (page_content doc) ++ Py.u "...")
    (metadata doc).

(** [_setup_chains]: [self.qa_chain] exists exactly when the vector store
    was loaded. *)
Definition _setup_chains (vectorstore : option string) : bool :=
  match vectorstore with Some _ => true | None => false end.

Definition get_advice_body (qa_chain : bool) (question : str)
    : result Response :=
  if qa_chain then
    r ← qa_chain_call question;
    a ← match qa_answer r with
        | Some a => Ok a
        | None => Err (KeyError "answer")
        end;
    Ok (mkResponse a None st_success None
          (Some (List.map preview (default [] (qa_source_documents r))))
          None)
  else
    content ← llm_invoke (general_prompt question);
    Ok (mkResponse content None st_success None (Some []) None).

(** [get_advice(self, question)] *)
Definition get_advice (qa_chain : bool) (question : str) : Response :=
  match get_advice_body qa_chain question with
  | Ok r => r
  | Err e =>
    mkResponse apology None st_error (Some (exn_str e)) (Some []) None
  end.

End Advisor.

(** *** [quick_diagnosis] *)

Inductive message : Type :=
  | HumanMessage (content : str)
  | AIMessage (content : str).

Definition no_image_analysis : str := Py.u "이미지 분석 결과 없음".
Definition no_cases : str := Py.u "관련 판례 없음".
Definition no_similar_cases : str := Py.u "관련 판례가 없습니다.".

(** [x or default] on strings *)
Definition str_or (x default : str) : str :=
  match x with [] => default | _ => x end.

Section Diagnosis.

(** [LLMChain(llm, prompt).invoke(inputs)["text"]]: the completion
    service, called with the values of the template's variables. *)
Variable chain_invoke : list (string * str) -> result str.

(** [SimpleTrafficAdvisor.quick_diagnosis]; [memory] is
    [self.memory.chat_memory.messages]. *)
Definition simple_quick_diagnosis (memory : list message)
    (user_input image_analysis : str) : list message * Response :=
  match chain_invoke
          [("user_input"%string, user_input);
           ("image_analysis"%string, str_or image_analysis no_image_analysis)]
  with
  | Ok text =>
    (memory ++ [HumanMessage user_input; AIMessage text],
     mkResponse text (Some (Py.u "quick_diagnosis")) st_success None None None)
  | Err e =>
    (memory,
     mkResponse apology (Some st_error) st_error (Some (exn_str e)) None None)
  end.

(** [x[:100]] for a field value: only text can be sliced. *)
Definition slice100 (v : value) : result str :=
  match v with
  | VStr s => Ok (firstn 100 s)
  | VInt _ => Err TypeError
  end.

(** The three list comprehensions over [similar_cases], each reading the
    records through their references. *)
Definition get_case (store : list dict) (ref : nat) : result dict :=
  match store !! ref with
  | Some case => Ok case
  | None => Err (Exception (Py.u "dangling reference"))
  end.

Fixpoint format_cases (line : dict -> result str) (store : list dict)
    (refs : list nat) : result (list str) :=
  match refs with
  | [] => Ok []
  | r :: rest =>
    case ← get_case store r;
    l ← line case;
    ls ← format_cases line store rest;
    Ok (l :: ls)
  end.

Definition case_example_line (case : dict) : result str :=
  case_id ← getitem case "case_id";
  ratio ← getitem case "fault_ratio";
  Ok (Py.u "- " ++ str_of_value case_id ++ Py.u ": " ++ str_of_value ratio).

Definition reference_case_line (case : dict) : result str :=
  case_id ← getitem case "case_id";
  d ← getitem case "accident_description";
  d100 ← slice100 d;
  ratio ← getitem case "fault_ratio";
  Ok (Py.u "**" ++ str_of_value case_id ++ Py.u "**: " ++ d100
      ++ Py.u "... (과실비율: " ++ str_of_value ratio ++ Py.u ")").

Definition similar_case_line (case : dict) : result str :=
  case_id ← getitem case "case_id";
  d ← getitem case "accident_description";
  ratio ← getitem case "fault_ratio";
  Ok (str_of_value case_id ++ Py.u ": " ++ str_of_value d
      ++ Py.u " (과실비율: " ++ str_of_value ratio ++ Py.u ")").

Definition enhanced_inputs (store : list dict) (similar : list nat)
    (user_input image_analysis : str) : result (list (string * str)) :=
  texts ←
    match similar with
    | [] => Ok ([], [], no_similar_cases)
    | _ =>
      ex ← format_cases case_example_line store similar;
      rf ← format_cases reference_case_line store similar;
      sm ← format_cases similar_case_line store similar;
      Ok (Py.join nl ex, Py.join nl rf, Py.join nl sm)
    end;
  let '(case_examples, reference_cases, similar_cases_text) := texts in
  Ok [("user_input"%string, user_input);
      ("image_analysis"%string, str_or image_analysis no_image_analysis);
      ("similar_cases"%string, similar_cases_text);
      ("case_examples"%string, str_or case_examples no_cases);
      ("reference_cases"%string, str_or reference_cases no_cases)].

(** [EnhancedTrafficAdvisor.quick_diagnosis]; the state is
    [self.case_data] and the chat memory. *)
Definition enhanced_quick_diagnosis (case_data : list dict)
    (memory : list message) (user_input image_analysis : str)
    : list dict * list message * Response :=
  let '(store, found) := _search_similar_cases case_data user_input in
  match (similar ← found;
         inputs ← enhanced_inputs store similar user_input image_analysis;
         text ← chain_invoke inputs;
         Ok (similar, text))
  with
  | Ok (similar, text) =>
    (store, memory ++ [HumanMessage user_input; AIMessage text],
     mkResponse text (Some (Py.u "quick_diagnosis")) st_success None None
       (Some similar))
  | Err e =>
    (store, memory,
     mkResponse apology (Some st_error) st_error (Some (exn_str e)) None None)
  end.

End Diagnosis.

(** ** The configuration ([config/config.py]) *)

(** The names the class body of [Config] binds.  Reading any other
    attribute of the class raises [AttributeError]. *)
Definition Config_names : list string :=
  ["GOOGLE_API_KEY"; "DATA_DIR"; "LAWS_DIR"; "CASES_DIR"; "PROCESSED_DIR";
   "CHROMA_DB_PATH"; "LOGS_DIR"; "CRAWLER_BASE_URL"; "CRAWLER_DELAY";
   "MAX_CRAWL_PAGES"; "MODEL_NAME"; "TEMPERATURE"; "MAX_TOKENS";
   "CHUNK_SIZE"; "CHUNK_OVERLAP"; "SIMILARITY_SEARCH_K"; "STREAMLIT_PORT";
   "STREAMLIT_HOST"; "LOG_LEVEL"; "LOG_FILE"; "validate";
   "get_cases_file_path"; "get_chroma_db_path"]%string.

(** [AttributeError] and [ValueError]: the program catches them as
    [Exception] and reads only their text. *)
Definition AttributeError (name : string) : exn :=
  Exception (Py.u "type object 'Config' has no attribute '" ++ Py.u name
             ++ Py.u "'").

Definition ValueError (msg : str) : exn := Exception msg.

(** The value of a class attribute: what [os.getenv] gives (a text or
    [None]), or some other object. *)
Inductive attr : Type :=
  | AText (s : option str)
  | AObject.

(** [Config.<name>]; [GOOGLE_API_KEY] is [os.getenv("GOOGLE_API_KEY")]. *)
Definition Config_getattr (GOOGLE_API_KEY : option str) (name : string)
    : result attr :=
  if String.eqb name "GOOGLE_API_KEY" then Ok (AText GOOGLE_API_KEY)
  else if bool_decide (name ∈ Config_names) then Ok AObject
  else Err (AttributeError name).

(** [not x] for the value of [GOOGLE_API_KEY]. *)
Definition falsy (a : attr) : bool :=
  match a with
  | AText None | AText (Some []) => true
  | _ => false
  end.

(** ** The Gemini client ([GeminiClient]) *)

(** What the interpreter and the operating system provide: floats, the
    clock ([time.time()] reads it, [time.sleep(d)] lets it run), the
    division [60 / x] and the comparison [n > x] on an attribute value. *)
Record Runtime : Type := mkRuntime {
  float : Type;
  float_of_int : Z -> float;
  float_sub : float -> float -> float;
  float_lt : float -> float -> bool;
  clock : Type;
  time_time : clock -> float * clock;
  time_sleep : float -> clock -> clock;
  sixty_over : attr -> result float;
  int_gt : Z -> attr -> result bool
}.

(** A request to the completion service: [generate_content(prompt,
    generation_config=...)] with [max_output_tokens], or the test request
    of the status check. *)
Inductive request : Type :=
  | TextRequest (prompt : str) (max_output_tokens : Z + attr)
  | StatusRequest.

Section Gemini.

Variable rt : Runtime.
Variable GOOGLE_API_KEY : option str.

(** [self.model.generate_content(...).text] *)
Variable generate_content : request -> result str.

Record GeminiClient : Type := mkGeminiClient {
  last_request_time : float rt;
  min_interval : float rt
}.

(** The clock, and the requests sent so far (latest first). *)
Record GeminiWorld : Type := mkGeminiWorld {
  world_clock : clock rt;
  requests : list request
}.

(** [GeminiClient.__init__(self)] *)
Definition GeminiClient__init__ : result GeminiClient :=
  key ← Config_getattr GOOGLE_API_KEY "GOOGLE_API_KEY";
  if falsy key
  then Err (ValueError (Py.u "GOOGLE_API_KEY가 설정되지 않았습니다."))
  else
    _ ← Config_getattr GOOGLE_API_KEY "GEMINI_MODEL";
    _ ← Config_getattr GOOGLE_API_KEY "GEMINI_VISION_MODEL";
    limit ← Config_getattr GOOGLE_API_KEY "GEMINI_RATE_LIMIT";
    interval ← sixty_over rt limit;
    _ ← Config_getattr GOOGLE_API_KEY "GEMINI_MODEL";
    Ok (mkGeminiClient (float_of_int rt 0) interval).


Definition send (r : request) (w : GeminiWorld) : GeminiWorld :=
  mkGeminiWorld (world_clock w) (r :: requests w).


(** [check_api_status(self)]: the test request, then the status of the
    returned dict, or the exception that leaves the method.  Both
    [return] statements read [Config.GEMINI_MODEL], the first inside the
    [try]. *)
Definition check_api_status (c : GeminiClient) (w : GeminiWorld)
    : GeminiWorld * result str :=
  let w1 := send StatusRequest w in
  let report (status : str) : result str :=
    _ ← Config_getattr GOOGLE_API_KEY "GEMINI_MODEL"; Ok status in
  match generate_content StatusRequest with
  | Ok _ =>
    match report st_success with
    | Ok status => (w1, Ok status)
    | Err _ => (w1, report st_error)
    end
  | Err _ => (w1, report st_error)
  end.

End Gemini.

(** ** The advisors' calls in time *)




(** The inputs of the call of [SimpleTrafficAdvisor.quick_diagnosis]. *)
Definition simple_inputs (user_input image_analysis : str)
    : list (string * str) :=
  [("user_input"%string, user_input);
   ("image_analysis"%string, str_or image_analysis no_image_analysis)].

Section TimedDiagnosis.

Variable chain_invoke : list (string * str) -> result str.

(** The time from entering the method to the call, and the time the
    service takes to answer a call. *)
Variable setup : Z.
Variable latency : list (string * str) -> Z.



End TimedDiagnosis.


(** ** Specification vocabulary for the keyword matcher *)

Definition ss_key : string := "similarity_score".

(** The number of vocabulary terms that occur both in the query and in the
    text. *)
Definition shared_terms (user_input text : str) : Z :=
  Z.of_nat
    (length
       (List.filter
          (fun kw => Py.str_in kw user_input && Py.str_in kw text)
          keywords)).

(** The score of a record for a query: the shared terms of the query and
    the record's text (0 for a record without text). *)
Definition record_score (user_input : str) (case : dict) : Z :=
  match case_text case with
  | Ok text => shared_terms user_input text
  | Err _ => 0
  end.

Definition score_at (user_input : str) (case_data : list dict) (ref : nat) : Z :=
  match case_data !! ref with
  | Some case => record_score user_input case
  | None => 0
  end.

(** [r] is ranked before [j]: a higher score, or the same score and an
    earlier place in the corpus. *)
Definition ranks_before (user_input : str) (case_data : list dict)
    (r j : nat) : Prop :=
  score_at user_input case_data j < score_at user_input case_data r
  \/ (score_at user_input case_data r = score_at user_input case_data j
      /\ (r < j)%nat).

(** A record with the three text fields the matcher reads. *)
Definition has_text (case : dict) : Prop :=
  is_Some (case !! "vehicle_A_situation")
  /\ is_Some (case !! "vehicle_B_situation")
  /\ is_Some (case !! "accident_description").

(** A record with all five fields of the corpus file. *)
Definition has_fields (case : dict) : Prop :=
  is_Some (case !! "case_id") /\ has_text case
  /\ is_Some (case !! "fault_ratio").

(** What the loop leaves in a record: the score, when it is positive. *)
Definition annotate (user_keywords : list str) (case : dict) : dict :=
  match case_text case with
  | Ok text =>
    if 0 <? count_score user_keywords text 0
    then <[ss_key := VInt (count_score user_keywords text 0)]> case
    else case
  | Err _ => case
  end.

(** The positions, from [i] on, of the records with a positive score. *)
Fixpoint hits (user_keywords : list str) (i : nat) (cases : list dict)
    : list nat :=
  match cases with
  | [] => []
  | case :: rest =>
    match case_text case with
    | Ok text =>
      if 0 <? count_score user_keywords text 0
      then i :: hits user_keywords (S i) rest
      else hits user_keywords (S i) rest
    | Err _ => hits user_keywords (S i) rest
    end
  end.

(** The order of the sorted list: higher key first, equal keys by
    reference. *)
Definition before (x y : Z * nat) : Prop :=
  fst y < fst x \/ (fst x = fst y /\ (snd x < snd y)%nat).

(** Five records; A2 and A4 tie on two terms, A1 and A5 on one. *)
Definition corpus_five : list dict :=
  [mk_case "A1" "직진" "유턴" "일반도로 충돌" "30:70";
   mk_case "A2" "직진" "좌회전" "교차로 충돌" "40:60";
   mk_case "A3" "직진" "좌회전" "신호등 교차로 황색 점멸" "20:80";
   mk_case "A4" "좌회전" "직진" "교차로" "70:30";
   mk_case "A5" "정차" "좌회전" "주차" "100:0"].

Definition query_crossing : str :=
  Py.u "신호등 교차로에서 직진 중 좌회전 차량과 충돌했습니다".

Definition query_no_terms : str := Py.u "주차된 차를 긁었습니다".

(** All positions with a positive score, in the order of the sort. *)
Definition ranked (user_input : str) (case_data : list dict)
    : list (Z * nat) :=
  sort_desc
    ((fun j => (score_at user_input case_data j, j))
       <$> hits (user_keywords_of user_input) 0 case_data).

(** How the loop may leave a record: as it was, or with its score. *)
Definition touched (user_keywords : list str) (a b : dict) : Prop :=
  b = a \/ b = annotate user_keywords a.

(** ** Specification vocabulary for the normalizer *)

(** The canonical documents of the records that have all their fields. *)
Definition well_formed_documents (cases : list dict) : list Document :=
  omap
    (fun case =>
       match case_document case with
       | Ok doc => Some doc
       | Err _ => None
       end)
    cases.

Definition load_failed (e : exn) : log_entry :=
  LogError (Py.u "판례 로드 실패: " ++ exn_str e).

(** ** Specification vocabulary for retrieval *)

(** The case ids of the evidence a response carries, and of the records a
    keyword match refers to. *)
Definition evidence_case_ids (r : Response) : list (option value) :=
  (fun sd => sd_metadata sd !! "case_id") <$> default [] (source_documents r).

Definition matched_case_ids (found : list dict * result (list nat))
    : list (option value) :=
  match snd found with
  | Ok refs => (fun case => case !! "case_id") <$> deref (fst found) refs
  | Err _ => []
  end.

(** A persist directory whose index cannot be opened. *)
Definition broken_dir : PersistDir unit := mkPersistDir unit ∅ true None.

(** A completion service that answers, and a retrieval chain that is
    down. *)
Definition llm_answers : str -> result str := fun _ => Ok (Py.u "answer").
Definition chain_down : str -> result QAResult :=
  fun _ => Err (Exception (Py.u "index unavailable")).

(** The response of the error branch of the diagnosis functions. *)
Definition error_response (e : exn) : Response :=
  mkResponse apology (Some st_error) st_error (Some (exn_str e)) None None.

(** A completion service that returns an empty text. *)
Definition chain_empty : list (string * str) -> result str := fun _ => Ok [].

(** ** Specification vocabulary for request pacing *)

(** A runtime with integer time: the clock state is the time, reading it
    takes no time, sleeping adds the duration. *)
Definition runtime_Z : Runtime :=
  mkRuntime Z (fun z => z) Z.sub Z.ltb Z (fun t => (t, t))
    (fun d t => t + d) (fun _ => Err TypeError) (fun _ _ => Err TypeError).

(** A completion service that answers every request, and a chain that
    answers every call. *)
Definition service_up : request -> result str := fun _ => Ok (Py.u "text").


(** ** Specification vocabulary for the chunker *)

(** A text without white space: it has none of the separators, and
    stripping leaves it as it is. *)
Definition no_space (text : str) : Prop :=
  Forall (fun c => Py.isspace c = false) text.

(** The pieces the empty separator gives: one per character. *)
Definition chars (text : str) : list str := (fun c => [c]) <$> text.

(** ** Specification vocabulary for the index build *)

(** An embedding service that always answers (every text has the same
    vector), and a fresh persist directory. *)
Definition embed_all : list str -> result (list unit) :=
  fun texts => Ok ((fun _ => tt) <$> texts).





(** ** Text utilities ([src/utils.py], [AccidentCrawler._clean_text]) *)

(** [s.replace(old, new)] for a non-empty [old]: the leftmost
    non-overlapping occurrences are replaced.  [skip] counts the
    characters of a matched occurrence still to pass. *)
Fixpoint replace_scan (old new s : str) (skip : nat) : str :=
  match s with
  | [] => []
  | c :: rest =>
    match skip with
    | S k => replace_scan old new rest k
    | O =>
      if Py.startswith old s
      then new ++ replace_scan old new rest (length old - 1)
      else c :: replace_scan old new rest 0
    end
  end.

Definition replace (old new s : str) : str := replace_scan old new s 0.

(** [re.sub(r'\s+', ' ', s)]: every maximal run of white space becomes
    one space.  [in_run] tells that the previous character was white
    space. *)
Fixpoint collapse_spaces (s : str) (in_run : bool) : str :=
  match s with
  | [] => []
  | c :: rest =>
    if Py.isspace c
    then (if in_run then collapse_spaces rest true
          else 32%N :: collapse_spaces rest true)
    else c :: collapse_spaces rest false
  end.

Definition crlf : str := [13; 10]%N.

(** The marker the crawled descriptions carry, with its space. *)
Definition bullet : str := Eval vm_compute in Py.u "⊙ ".

(** [clean_text(text)] *)
Definition clean_text (text : str) : str :=
  match text with
  | [] => []
  | _ =>
    let cleaned := Py.strip text in
    let cleaned := replace nl sp (replace crlf sp cleaned) in
    let cleaned := replace bullet [] cleaned in
    let cleaned := collapse_spaces cleaned false in
    Py.strip cleaned
  end.

Section FaultRatio.

(** The decimal value of a code point that is a digit ([\d], the Unicode
    category Nd), and the longest digit string [int] converts
    ([sys.int_max_str_digits], when the interpreter has the limit): both
    are tables of the interpreter. *)
Variable digit_value : N -> option N.
Variable int_max_str_digits : option nat.

(** [re.findall(r'\d+', s)]: the maximal runs of digits, as digit values.
    [cur] is the run being read, reversed. *)
Fixpoint findall_digits (s : str) (cur : list N) : list (list N) :=
  match s with
  | [] => match cur with [] => [] | _ => [rev cur] end
  | c :: rest =>
    match digit_value c with
    | Some d => findall_digits rest (d :: cur)
    | None =>
      match cur with
      | [] => findall_digits rest []
      | _ => rev cur :: findall_digits rest []
      end
    end
  end.

(** [int(m)] for a string of digits. *)
Definition int_of_digits (m : list N) : result N :=
  match int_max_str_digits with
  | Some limit =>
    if (limit <? length m)%nat
    then Err (Exception (Py.u "Exceeds the limit for integer string conversion"))
    else Ok (fold_left (fun acc d => (acc * 10 + d)%N) m 0%N)
  | None => Ok (fold_left (fun acc d => (acc * 10 + d)%N) m 0%N)
  end.

(** [extract_fault_ratio(fault_string)] *)
Definition extract_fault_ratio (fault_string : str) : option N * option N :=
  match findall_digits fault_string [] with
  | m0 :: m1 :: _ =>
    match (a ← int_of_digits m0; b ← int_of_digits m1; Ok (a, b)) with
    | Ok (a, b) => (Some a, Some b)
    | Err _ => (None, None)
    end
  | _ => (None, None)
  end.

End FaultRatio.

(** The digits of ASCII. *)
Definition ascii_digit (c : N) : option N :=
  if ((48 <=? c) && (c <=? 57))%N then Some (c - 48)%N else None.

(** The text the crawler's test cleans. *)
Definition text_to_clean : str :=
  Py.u "⊙ 테스트" ++ nl ++ nl ++ Py.u "텍스트" ++ crlf ++ Py.u "입니다.".

(** A text in which white space is single spaces between words: every
    white-space character is a space, no two are adjacent, and none is at
    either end. *)
Definition single_spaced (s : str) : Prop :=
  (forall c, c ∈ s -> Py.isspace c = true -> c = 32%N)
  /\ (forall i a b,
        s !! i = Some a -> s !! S i = Some b ->
        Py.isspace a = true -> Py.isspace b = false)
  /\ (forall c, head s = Some c -> Py.isspace c = false)
  /\ (forall c, last s = Some c -> Py.isspace c = false).

(** The same read from the left: [after_space] tells that the character
    before was white space (or that the text starts here). *)
Fixpoint spaced_from (after_space : bool) (s : str) : Prop :=
  match s with
  | [] => True
  | c :: rest =>
    if Py.isspace c
    then c = 32%N /\ after_space = false /\ spaced_from true rest
    else spaced_from false rest
  end.

(** The digit values of a decimal numeral. *)
Fixpoint uint_digits (d : Decimal.uint) : list N :=
  match d with
  | Decimal.Nil => []
  | Decimal.D0 r => 0%N :: uint_digits r
  | Decimal.D1 r => 1%N :: uint_digits r
  | Decimal.D2 r => 2%N :: uint_digits r
  | Decimal.D3 r => 3%N :: uint_digits r
  | Decimal.D4 r => 4%N :: uint_digits r
  | Decimal.D5 r => 5%N :: uint_digits r
  | Decimal.D6 r => 6%N :: uint_digits r
  | Decimal.D7 r => 7%N :: uint_digits r
  | Decimal.D8 r => 8%N :: uint_digits r
  | Decimal.D9 r => 9%N :: uint_digits r
  end.

(** The ratio as the crawler writes it: [f"{a} : {b}"]. *)
Definition fault_ratio_string (a b : N) : str :=
  Py.str_of_int (Z.of_N a) ++ Py.u " : " ++ Py.str_of_int (Z.of_N b).

(** [int] accepts the digit string of [n]. *)
Definition within_int_limit (limit : option nat) (n : N) : Prop :=
  match limit with
  | Some l => (length (Py.str_of_int (Z.of_N n)) <= l)%nat
  | None => True
  end.

(** The decimal digits of a number, most significant first. *)
Definition digits_of (n : N) : list N :=
  match n with
  | N0 => [0%N]
  | Npos p => uint_digits (Pos.to_uint p)
  end.

Definition digit_char (d : N) : N := (d + 48)%N.

Definition decimal_step (acc d : N) : N := (acc * 10 + d)%N.

(** ** Conversations ([detailed_analysis], [analyze_with_context]) *)

(** [l[-n:]] *)
Definition last_n {A} (n : nat) (l : list A) : list A :=
  drop (length l - n) l.

(** [f"{'사용자' if isinstance(msg, HumanMessage) else '자문사'}: {msg.content}"] *)
Definition speaker_line (msg : message) : str :=
  match msg with
  | HumanMessage content => Py.u "사용자" ++ Py.u ": " ++ content
  | AIMessage content => Py.u "자문사" ++ Py.u ": " ++ content
  end.

Definition detail_failed : str :=
  Py.u "상세 분석 중 오류가 발생했습니다. 다시 시도해주세요.".

Definition detail_keywords : list str :=
  Eval vm_compute in
  List.map Py.u
    ["상세"; "더 자세히"; "상세 분석"; "더 알고 싶"; "자세한 설명"]%string.

(** [any(keyword in user_input for keyword in detail_keywords)] *)
Definition is_detail_request (user_input : str) : bool :=
  existsb (fun keyword => Py.str_in keyword user_input) detail_keywords.

(** The inputs of the detailed-analysis chain: the last six messages, one
    line each, and the request. *)
Definition detail_inputs (memory : list message) (user_input : str)
    : list (string * str) :=
  [("chat_history"%string, Py.join nl (speaker_line <$> last_n 6 memory));
   ("user_input"%string, user_input)].

Section Conversation.

(** The chains of the two prompts. *)
Variable quick_invoke : list (string * str) -> result str.
Variable detail_invoke : list (string * str) -> result str.

(** [detailed_analysis(self, user_input)], the same in
    [SimpleTrafficAdvisor] and [EnhancedTrafficAdvisor]. *)
Definition detailed_analysis (memory : list message) (user_input : str)
    : list message * Response :=
  match detail_invoke (detail_inputs memory user_input) with
  | Ok text =>
    (memory ++ [HumanMessage user_input; AIMessage text],
     mkResponse text (Some (Py.u "detailed_analysis")) st_success None None
       None)
  | Err e =>
    (memory,
     mkResponse detail_failed (Some st_error) st_error (Some (exn_str e))
       None None)
  end.


(** [EnhancedTrafficAdvisor.analyze_with_context] *)
Definition enhanced_analyze_with_context (case_data : list dict)
    (memory : list message) (user_input image_analysis : str)
    : list dict * list message * Response :=
  if is_detail_request user_input
  then
    let '(memory', r) := detailed_analysis memory user_input in
    (case_data, memory', r)
  else enhanced_quick_diagnosis quick_invoke case_data memory user_input
         image_analysis.

(** A session of the enhanced advisor: requests, and [clear_conversation]
    between them. *)
Inductive turn : Type :=
  | Ask (user_input image_analysis : str)
  | Clear.

Definition enhanced_turn (s : list dict * list message) (t : turn)
    : list dict * list message :=
  match t with
  | Ask user_input image_analysis =>
    fst (enhanced_analyze_with_context (fst s) (snd s) user_input
           image_analysis)
  | Clear => (fst s, [])
  end.

Definition enhanced_session (s : list dict * list message) (ts : list turn)
    : list dict * list message :=
  fold_left enhanced_turn ts s.

End Conversation.

(** A memory made of whole exchanges: a user message, then the reply. *)
Definition exchange (ua : str * str) : list message :=
  [HumanMessage (fst ua); AIMessage (snd ua)].

Definition exchanges (exs : list (str * str)) : list message :=
  flat_map exchange exs.


(** A record with its text but without its case id. *)
Definition case_no_id (a b d ratio : string) : dict :=
  delete "case_id" (mk_case EmptyString a b d ratio).

(** ** The command-line turn ([analyze_situation], [run_cli_chat]) *)

Record Analysis : Type := mkAnalysis {
  needs_clarification : bool;
  clarification_questions : str;
  analysis_status : str;
  analysis_error : option str
}.

Definition enough_information : str := Eval vm_compute in Py.u "정보 충분".

Inductive cli_output : Type :=
  | CliQuit
  | CliBlank
  | CliClarification (questions : str)
  | CliAdvice (answer : str) (references : list (str * str)).

Definition quit_words : list str :=
  Eval vm_compute in List.map Py.u ["quit"; "exit"; "종료"]%string.

Definition not_available : str := Py.u "N/A".

Section CommandLine.

(** The clarification chain, the retrieval chain and the completion call
    are external; [lower] is the interpreter's case mapping. *)
Variable clarification_run : str -> str -> result str.
Variable qa_chain_call : str -> result QAResult.
Variable llm_invoke : str -> result str.
Variable lower : str -> str.

(** [TrafficAccidentAdvisor.analyze_situation(user_input)] *)
Definition analyze_situation (memory : list message) (user_input : str)
    : Analysis :=
  match clarification_run user_input
          (Py.join nl (speaker_line <$> last_n 10 memory))
  with
  | Ok reply =>
    mkAnalysis (negb (Py.str_in enough_information reply)) reply st_success
      None
  | Err e => mkAnalysis false [] st_error (Some (exn_str e))
  end.

(** The reference lines printed under an advice: the first two sources,
    [doc['metadata'].get('case_id', 'N/A')] and
    [doc['content'][:100] + "..."]. *)
Definition cli_reference (sd : SourceDocument) : str * str :=
  (match sd_metadata sd !! "case_id" with
   | Some v => str_of_value v
   | None => not_available
   end,
   firstn 100 (sd_content sd) ++ Py.u "...").

(** One pass of the loop of [run_cli_chat]. *)
Definition cli_turn (qa_chain : bool) (memory : list message)
    (user_input : str) : cli_output :=
  if bool_decide (lower user_input ∈ quit_words) then CliQuit
  else
    match Py.strip user_input with
    | [] => CliBlank
    | _ =>
      let analysis := analyze_situation memory user_input in
      if needs_clarification analysis
      then CliClarification (clarification_questions analysis)
      else
        let advice := get_advice qa_chain_call llm_invoke qa_chain user_input in
        CliAdvice (answer advice)
          (cli_reference <$> firstn 2 (default [] (source_documents advice)))
    end.

End CommandLine.

(** A corpus whose record has no case id, a retrieval chain that returns
    one long document, and a clarification chain that is down. *)
Definition corpus_no_id : list dict :=
  [case_no_id "직진" "좌회전" "교차로 충돌" "30:70"].

Definition long_document : Document := mkDocument (repeat 97%N 400) ∅.

Definition chain_one_document : str -> result QAResult :=
  fun _ => Ok (mkQAResult (Some (Py.u "answer")) (Some [long_document])).

Definition clarification_down : str -> str -> result str :=
  fun _ _ => Err (Exception (Py.u "quota exceeded")).

(** ** Loading and building, the remaining paths *)

(** What [load_vectorstore_safe] returns: the store, the string
    ["backup_available"], or [None]. *)
Inductive load_outcome : Type :=
  | Loaded (name : string)
  | BackupAvailable
  | NotLoaded.

Definition test_query : str := Eval vm_compute in Py.u "테스트".

Section SafeLoad.

Variable vector : Type.
Variable embed_query : str -> result vector.
Variable distance : vector -> vector -> Z.

(** [FixedDocumentProcessor.load_vectorstore_safe()]: [dir_exists] tells
    whether the persist directory is there; the result is
    [self.vectorstore] after the call and what is returned. *)
Definition load_vectorstore_safe (dir_exists : bool) (dir : PersistDir vector)
    (vectorstore : option string) : option string * load_outcome :=
  let fallback :=
    match backup_chunks vector dir with
    | Some _ => BackupAvailable
    | None => NotLoaded
    end in
  if negb dir_exists then (vectorstore, NotLoaded)
  else if corrupted vector dir then (vectorstore, fallback)
  else
    match similarity_search_with_score vector embed_query distance
            (collection vector dir "traffic_accidents") test_query 1
    with
    | Ok _ =>
      (Some "traffic_accidents"%string, Loaded "traffic_accidents")
    | Err _ => (Some "traffic_accidents"%string, fallback)
    end.

End SafeLoad.


Section BuildVectorDb.

Variable vector : Type.
Variable embed_documents : list str -> result (list vector).
Variable after_failure :
  list (Entry vector) -> list Document -> list (Entry vector).


End BuildVectorDb.

(** [DocumentProcessor.load_pdf_documents(pdf_directory)] *)

Definition legal_metadata (file_name : str) (m : dict) : dict :=
  <["source" := VStr (Py.u "legal_document")]>
  (<["file_name" := VStr file_name]>
  (<["type" := VStr (Py.u "법률문서")]> m)).

Definition legal_page (file_name : str) (doc : Document) : Document :=
  mkDocument (page_content doc) (legal_metadata file_name (metadata doc)).

(** The loop over [pdf_dir.glob("*.pdf")]: each file with what
    [PyPDFLoader(...).load()] gives for it. *)
Fixpoint load_pdf_loop (files : list (str * result (list Document)))
    (documents : list Document) (log : list log_entry)
    : list Document * list log_entry :=
  match files with
  | [] => (documents, log)
  | (file_name, loaded) :: rest =>
    match loaded with
    | Ok docs =>
      load_pdf_loop rest (documents ++ (legal_page file_name <$> docs))
        (log ++ [LogInfo (Py.u "PDF 로드 완료: " ++ file_name ++ Py.u " ("
                          ++ Py.str_of_int (Z.of_nat (length docs))
                          ++ Py.u "페이지)")])
    | Err e =>
      load_pdf_loop rest documents
        (log ++ [LogError (Py.u "PDF 로드 실패 " ++ file_name ++ Py.u ": "
                           ++ exn_str e)])
    end
  end.

Definition load_pdf_documents (pdf_directory : str)
    (listing : option (list (str * result (list Document))))
    : list Document * list log_entry :=
  match listing with
  | None =>
    ([], [LogWarning (Py.u "PDF 디렉토리가 존재하지 않습니다: "
                      ++ pdf_directory)])
  | Some files =>
    let '(documents, log) := load_pdf_loop files [] [] in
    (documents,
     log ++ [LogInfo (Py.u "총 "
                      ++ Py.str_of_int (Z.of_nat (length documents))
                      ++ Py.u "개 PDF 문서 로드 완료")])
  end.

(** The pages of the files that can be read. *)
Definition readable_pages (files : list (str * result (list Document)))
    : list Document :=
  flat_map
    (fun f =>
       match snd f with
       | Ok docs => legal_page (fst f) <$> docs
       | Err _ => []
       end)
    files.

Definition is_log_error (l : log_entry) : bool :=
  match l with LogError _ => true | _ => false end.

Definition is_unreadable (f : str * result (list Document)) : bool :=
  match snd f with Err _ => true | Ok _ => false end.

(** [build_vectorstore_safe] with the write of [backup_chunks.json] made
    explicit: the inner [try] of the handler can fail too
    ([backup_written = false]), and then the file is whatever the failed
    write leaves ([backup_after_failure]). *)
Section SafeBuild.

Variable vector : Type.
Variable embed_documents : list str -> result (list vector).
Variable after_failure :
  list (Entry vector) -> list Document -> list (Entry vector).
Variable backup_written : bool.
Variable backup_after_failure : option (list Document).

Definition build_vectorstore_safe_backup (dir : PersistDir vector)
    (vectorstore : option string) (documents : list Document)
    : PersistDir vector * option string * bool :=
  match documents with
  | [] => (dir, vectorstore, false)
  | _ =>
    let chunks := text_splitter_split_documents documents in
    match from_documents vector embed_documents after_failure dir
            "traffic_accidents" chunks
    with
    | (dir', Ok _) => (dir', Some "traffic_accidents"%string, true)
    | (dir', Err e) =>
      (mkPersistDir vector (collections vector dir') (corrupted vector dir')
         (if backup_written then Some chunks else backup_after_failure),
       vectorstore, false)
    end
  end.

End SafeBuild.

(** Every chunk has at most [n] characters. *)
Definition chunks_within (n : Z) (chunks : list str) : Prop :=
  Forall (fun c => Splitter.len c <= n) chunks.

(** ** The summary of an image analysis *)

(** [text.split(sep)] for a one-character separator; [cur] is the current
    piece, reversed. *)
Fixpoint split_on (sep : N) (text : str) (cur : str) : list str :=
  match text with
  | [] => [rev cur]
  | c :: rest =>
    if (c =? sep)%N then rev cur :: split_on sep rest []
    else split_on sep rest (c :: cur)
  end.

Definition placeholder : str := Py.u "분석 중".

Definition parse_error : str := Py.u "파싱 오류".

Definition initial_summary : gmap string str :=
  <["accident_type" := placeholder]>
  (<["vehicles" := placeholder]>
  (<["damage" := placeholder]>
  (<["road_condition" := placeholder]>
  (<["key_factors" := placeholder]> ∅)))).

Definition error_summary : gmap string str :=
  <["accident_type" := parse_error]>
  (<["vehicles" := parse_error]>
  (<["damage" := parse_error]>
  (<["road_condition" := parse_error]>
  (<["key_factors" := parse_error]> ∅)))).

(** The body of [for line in lines]: the summary and [current_section]
    (the empty string before the first heading). *)
Definition summary_step (summary : gmap string str)
    (current_section : string) (line : str)
    : result (gmap string str * string) :=
  let line := Py.strip line in
  if Py.str_in (Py.u "사고 유형") line || Py.str_in (Py.u "사고 개요") line
  then Ok (summary, "accident_type"%string)
  else if Py.str_in (Py.u "차량") line
          && (Py.str_in (Py.u "상태") line || Py.str_in (Py.u "정보") line)
  then Ok (summary, "vehicles"%string)
  else if Py.str_in (Py.u "손상") line || Py.str_in (Py.u "충돌") line
  then Ok (summary, "damage"%string)
  else if Py.str_in (Py.u "도로") line || Py.str_in (Py.u "환경") line
  then Ok (summary, "road_condition"%string)
  else if Py.str_in (Py.u "과실") line || Py.str_in (Py.u "요소") line
  then Ok (summary, "key_factors"%string)
  else if Splitter.nonempty line
          && negb (String.eqb current_section EmptyString)
          && negb (Py.startswith (Py.u "#") line)
  then
    match summary !! current_section with
    | None => Err (KeyError current_section)
    | Some value =>
      if bool_decide (value = placeholder)
      then Ok (<[current_section := line]> summary, current_section)
      else Ok (<[current_section := value ++ Py.u " " ++ line]> summary,
               current_section)
    end
  else Ok (summary, current_section).

Fixpoint summary_loop (lines : list str) (summary : gmap string str)
    (current_section : string) : result (gmap string str) :=
  match lines with
  | [] => Ok summary
  | line :: rest =>
    st ← summary_step summary current_section line;
    summary_loop rest (fst st) (snd st)
  end.

(** The [try] block of [get_analysis_summary]. *)
Definition parse_analysis (analysis_text : str) : result (gmap string str) :=
  match analysis_text with
  | [] => Ok initial_summary
  | _ => summary_loop (split_on 10 analysis_text []) initial_summary
           EmptyString
  end.

(** [AccidentImageAnalyzer.get_analysis_summary(analysis_text)] *)
Definition get_analysis_summary (analysis_text : str) : gmap string str :=
  match parse_analysis analysis_text with
  | Ok summary => summary
  | Err _ => error_summary
  end.

Definition summary_keys : gset string :=
  {[ "accident_type"; "vehicles"; "damage"; "road_condition";
     "key_factors" ]}%string.

(** An analysis with two headings and their lines. *)
Definition analysis_two_sections : str :=
  Py.u "## 사고 유형" ++ nl ++ Py.u "추돌" ++ nl ++ Py.u "후방" ++ nl
  ++ Py.u "## 도로 상황" ++ nl ++ Py.u "  교차로  ".

(** The invariant of the loop: the five fields, a section that is one of
    them once a heading was seen, and no empty field. *)
Definition summary_inv (summary : gmap string str) (section : string) : Prop :=
  dom summary = summary_keys
  /\ (section = EmptyString \/ section ∈ summary_keys)
  /\ map_Forall (fun _ value => value <> []) summary.

(** ** The score, as the specification words it *)

(** The text of a field of a record. *)
Definition field_text (case : dict) (key : string) : str :=
  match case !! key with
  | Some v => str_of_value v
  | None => []
  end.

(** A vocabulary term occurs in a record when it occurs in one of its
    three text fields. *)
Definition term_in_record (term : str) (case : dict) : bool :=
  Py.str_in term (field_text case "vehicle_A_situation")
  || Py.str_in term (field_text case "vehicle_B_situation")
  || Py.str_in term (field_text case "accident_description").

(** The count of vocabulary terms a record shares with the query. *)
Definition spec_score (user_input : str) (case : dict) : Z :=
  Z.of_nat
    (length
       (List.filter
          (fun term => Py.str_in term user_input && term_in_record term case)
          keywords)).

Definition spec_score_at (user_input : str) (case_data : list dict)
    (ref : nat) : Z :=
  match case_data !! ref with
  | Some case => spec_score user_input case
  | None => 0
  end.

(** [r] comes before [j] in the ranking of the specification: a higher
    score, or the same score and an earlier place in the corpus. *)
Definition spec_ranks_before (user_input : str) (case_data : list dict)
    (r j : nat) : Prop :=
  spec_score_at user_input case_data j < spec_score_at user_input case_data r
  \/ (spec_score_at user_input case_data r
      = spec_score_at user_input case_data j
      /\ (r < j)%nat).

(** ** A failed build *)





(** * Theorems *)

Example search_A1 :
  snd (_search_similar_cases corpus_A1 query_left_turn) = Ok [0%nat].
Proof. vm_compute. reflexivity. Qed.

Example search_five :
  snd (_search_similar_cases corpus_five query_crossing) = Ok [2; 1; 3]%nat.
Proof. vm_compute. reflexivity. Qed.

(** ** The keyword matcher *)

Lemma count_score_filter user_keywords text score :
  count_score user_keywords text score
  = score + Z.of_nat (length (List.filter (fun kw => Py.str_in kw text)
                                 user_keywords)).
Proof.
  revert score. induction user_keywords as [|kw rest IH]; intros score; simpl.
  - lia.
  - rewrite IH. destruct (Py.str_in kw text); simpl; lia.
Qed.

Lemma filter_filter_andb {A} (f g : A -> bool) (l : list A) :
  List.filter g (List.filter f l) = List.filter (fun x => f x && g x) l.
Proof.
  induction l as [|x l IH]; simpl; [done|].
  destruct (f x); simpl; [|done]. destruct (g x); simpl; by rewrite IH.
Qed.

(** The loop's score is the number of shared vocabulary terms. *)
Lemma count_score_shared user_input text :
  count_score (user_keywords_of user_input) text 0
  = shared_terms user_input text.
Proof.
  rewrite count_score_filter. unfold user_keywords_of, shared_terms.
  by rewrite filter_filter_andb.
Qed.

Lemma getitem_insert_ne (case : dict) key key' v :
  key <> key' -> getitem (<[key := v]> case) key' = getitem case key'.
Proof. intros Hne. unfold getitem. by rewrite lookup_insert_ne. Qed.

Lemma case_text_insert_score (case : dict) v :
  case_text (<[ss_key := v]> case) = case_text case.
Proof.
  unfold case_text, ss_key. by rewrite !getitem_insert_ne.
Qed.

Lemma has_text_case_text case :
  has_text case -> exists text, case_text case = Ok text.
Proof.
  intros ([a Ha] & [b Hb] & [d Hd]). unfold case_text, getitem.
  rewrite Ha, Hb, Hd. simpl. eauto.
Qed.

(** The loop on records that all have their text: it visits the rest of
    the store, stores the positive scores and collects their positions. *)
Lemma search_loop_text user_keywords rest :
  Forall has_text rest ->
  forall pre similar,
    search_loop user_keywords (length rest) (length pre) (pre ++ rest) similar
    = (pre ++ List.map (annotate user_keywords) rest,
       Ok (similar ++ hits user_keywords (length pre) rest)).
Proof.
  induction 1 as [|case rest Hcase _ IH]; intros pre similar; simpl.
  - by rewrite !app_nil_r.
  - rewrite list_lookup_middle by done.
    destruct (has_text_case_text _ Hcase) as [text Htext].
    unfold annotate at 1. rewrite Htext.
    destruct (0 <? count_score user_keywords text 0) eqn:Hpos.
    + replace (<[length pre := _]> (pre ++ case :: rest))
        with ((pre ++ [<[ss_key := VInt (count_score user_keywords text 0)]> case])
                ++ rest).
      2:{ rewrite insert_app_r_alt by lia. rewrite Nat.sub_diag. simpl.
          by rewrite <- app_assoc. }
      replace (S (length pre))
        with (length (pre ++ [<[ss_key := VInt (count_score user_keywords text 0)]> case]))
        by (rewrite length_app; simpl; lia).
      rewrite IH. rewrite <- !app_assoc. simpl.
      rewrite length_app. simpl. by rewrite Nat.add_1_r.
    + replace (pre ++ case :: rest) with ((pre ++ [case]) ++ rest)
        by (by rewrite <- app_assoc).
      replace (S (length pre)) with (length (pre ++ [case]))
        by (rewrite length_app; simpl; lia).
      rewrite IH. rewrite <- !app_assoc. simpl.
      rewrite length_app. simpl. by rewrite Nat.add_1_r.
Qed.

(** *** The sort *)

Lemma insert_desc_perm x l : insert_desc x l ≡ₚ x :: l.
Proof.
  induction l as [|y l IH]; simpl; [done|].
  destruct (fst y <=? fst x); [done|].
  rewrite IH. apply Permutation_swap.
Qed.

Lemma sort_desc_perm l : sort_desc l ≡ₚ l.
Proof.
  induction l as [|x l IH]; simpl; [done|].
  unfold sort_desc in *. simpl. rewrite insert_desc_perm. by rewrite IH.
Qed.

Lemma before_trans_le x y z :
  before y z -> fst y <= fst x -> (snd x < snd z)%nat -> before x z.
Proof. unfold before. intros [H|[H1 H2]] Hle Hlt; lia. Qed.

(** Inserting an element whose reference is smaller than all those in a
    sorted list keeps it sorted: it goes before the elements whose key is
    not larger. *)
Lemma insert_desc_sorted x l :
  StronglySorted before l ->
  Forall (fun y => (snd x < snd y)%nat) l ->
  StronglySorted before (insert_desc x l).
Proof.
  induction 1 as [|y l Hl IH Hy]; intros Hx; simpl.
  - repeat constructor.
  - apply Forall_cons in Hx as [Hxy Hxl].
    destruct (fst y <=? fst x) eqn:Hle.
    + apply Z.leb_le in Hle. constructor; [by constructor|].
      constructor; [unfold before; lia|].
      rewrite Forall_forall in Hy, Hxl |- *. intros z Hz.
      eapply before_trans_le; [by apply Hy| done | by apply Hxl].
    + apply Z.leb_gt in Hle. constructor; [by apply IH|].
      rewrite insert_desc_perm. constructor; [unfold before; lia | done].
Qed.

(** A list given in reference order is sorted stably: by decreasing key,
    equal keys in reference order. *)
Lemma sort_desc_sorted l :
  StronglySorted (fun x y => (snd x < snd y)%nat) l ->
  StronglySorted before (sort_desc l).
Proof.
  induction 1 as [|x l Hl IH Hx]; [constructor|].
  change (sort_desc (x :: l)) with (insert_desc x (sort_desc l)).
  apply insert_desc_sorted; [done|]. by rewrite sort_desc_perm.
Qed.

Lemma StronglySorted_lookup {A} (R : A -> A -> Prop) (l : list A) :
  StronglySorted R l ->
  forall a b x y, (a < b)%nat -> l !! a = Some x -> l !! b = Some y -> R x y.
Proof.
  induction 1 as [|z l Hl IH Hz]; intros a b x y Hab Ha Hb.
  - by rewrite lookup_nil in Ha.
  - destruct b as [|b]; [lia|]. simpl in Hb. destruct a as [|a]; simpl in Ha.
    + injection Ha as <-. rewrite Forall_forall in Hz. apply Hz.
      by eapply list_elem_of_lookup_2.
    + eapply IH; [|done..]. lia.
Qed.

Lemma StronglySorted_take {A} (R : A -> A -> Prop) (l : list A) n :
  StronglySorted R l -> StronglySorted R (take n l).
Proof.
  intros Hl. revert n. induction Hl as [|z l Hl IH Hz]; intros [|n]; simpl;
    try constructor; [by apply IH|].
  rewrite Forall_forall in Hz |- *. intros y Hy. apply Hz.
  by apply (subseteq_take n l).
Qed.

(** *** The positions collected by the loop *)

Lemma hits_lower user_keywords rest :
  forall i, Forall (fun j => (i <= j)%nat) (hits user_keywords i rest).
Proof.
  induction rest as [|case rest IH]; intros i; simpl; [constructor|].
  assert (Forall (fun j => (i <= j)%nat) (hits user_keywords (S i) rest)) as Hrest.
  { eapply Forall_impl; [apply IH|]. simpl. lia. }
  destruct (case_text case) as [text|]; [|done].
  destruct (0 <? count_score user_keywords text 0); [|done].
  by constructor.
Qed.

Lemma hits_sorted user_keywords rest :
  forall i, StronglySorted lt (hits user_keywords i rest).
Proof.
  induction rest as [|case rest IH]; intros i; simpl; [constructor|].
  destruct (case_text case) as [text|]; [|by apply IH].
  destruct (0 <? count_score user_keywords text 0); [|by apply IH].
  constructor; [by apply IH|].
  eapply Forall_impl; [apply (hits_lower _ _ (S i))|]. simpl. lia.
Qed.

Lemma hits_elem user_keywords rest :
  forall i j,
    j ∈ hits user_keywords i rest <->
    exists case text,
      (i <= j)%nat /\ rest !! (j - i)%nat = Some case
      /\ case_text case = Ok text /\ 0 < count_score user_keywords text 0.
Proof.
  induction rest as [|case rest IH]; intros i j; simpl.
  - split; [by intros ?%elem_of_nil|]. by intros (? & ? & _ & ? & _).
  - assert (j ∈ hits user_keywords (S i) rest <->
            exists case' text, (i <= j)%nat /\ j <> i
              /\ (case :: rest) !! (j - i)%nat = Some case'
              /\ case_text case' = Ok text
              /\ 0 < count_score user_keywords text 0) as Htail.
    { rewrite IH. split.
      - intros (c & t & Hle & Hl & Ht & Hp). exists c, t.
        replace (j - i)%nat with (S (j - S i)) by lia. simpl.
        repeat split; try done; lia.
      - intros (c & t & Hle & Hne & Hl & Ht & Hp). exists c, t.
        replace (j - i)%nat with (S (j - S i)) in Hl by lia. simpl in Hl.
        repeat split; try done; lia. }
    destruct (case_text case) as [text|e] eqn:Htext.
    + destruct (0 <? count_score user_keywords text 0) eqn:Hpos.
      * rewrite elem_of_cons, Htail. split.
        -- intros [->|(c & t & Hle & _ & Hl & Ht & Hp)].
           ++ exists case, text. rewrite Nat.sub_diag. simpl.
              repeat split; try done. by apply Z.ltb_lt.
           ++ by exists c, t.
        -- intros (c & t & Hle & Hl & Ht & Hp).
           destruct (decide (j = i)) as [->|Hne]; [by left|right].
           by exists c, t.
      * rewrite Htail. split.
        -- intros (c & t & Hle & _ & Hl & Ht & Hp). by exists c, t.
        -- intros (c & t & Hle & Hl & Ht & Hp). exists c, t.
           repeat split; try done. intros ->. rewrite Nat.sub_diag in Hl.
           simpl in Hl. injection Hl as ->. rewrite Htext in Ht.
           injection Ht as ->. apply Z.ltb_ge in Hpos. lia.
    + rewrite Htail. split.
      * intros (c & t & Hle & _ & Hl & Ht & Hp). by exists c, t.
      * intros (c & t & Hle & Hl & Ht & Hp). exists c, t.
        repeat split; try done. intros ->. rewrite Nat.sub_diag in Hl.
        simpl in Hl. injection Hl as ->. by rewrite Htext in Ht.
Qed.

(** A position has a positive score exactly when the loop collects it. *)
Lemma hits_score user_input case_data j :
  j ∈ hits (user_keywords_of user_input) 0 case_data
  <-> 0 < score_at user_input case_data j.
Proof.
  rewrite hits_elem. unfold score_at, record_score. rewrite Nat.sub_0_r.
  split.
  - intros (c & t & _ & -> & -> & Hp). by rewrite <- count_score_shared.
  - destruct (case_data !! j) as [c|]; [|lia].
    destruct (case_text c) as [t|] eqn:Ht; [|lia].
    intros Hp. exists c, t. rewrite count_score_shared.
    repeat split; try done. lia.
Qed.

Lemma sort_key_annotated user_input case_data j :
  0 < score_at user_input case_data j ->
  sort_key (annotate (user_keywords_of user_input) <$> case_data) j
  = Ok (score_at user_input case_data j).
Proof.
  unfold score_at, record_score, sort_key. rewrite list_lookup_fmap.
  destruct (case_data !! j) as [c|]; [|lia]. simpl.
  unfold annotate. destruct (case_text c) as [t|]; [|lia].
  rewrite count_score_shared. intros Hp.
  apply Z.ltb_lt in Hp as Hp'. rewrite Hp'.
  unfold getitem. by rewrite lookup_insert_eq.
Qed.

Lemma keyed_scores user_input case_data refs :
  Forall (fun j => 0 < score_at user_input case_data j) refs ->
  keyed (annotate (user_keywords_of user_input) <$> case_data) refs
  = Ok ((fun j => (score_at user_input case_data j, j)) <$> refs).
Proof.
  induction 1 as [|j refs Hj _ IH]; simpl; [done|].
  rewrite sort_key_annotated by done. simpl. by rewrite IH.
Qed.

(** *** The matcher on a corpus of records with text *)

Lemma annotate_no_keywords case : annotate [] case = case.
Proof. unfold annotate. by destruct (case_text case). Qed.

Lemma hits_no_keywords rest : forall i, hits [] i rest = [].
Proof.
  induction rest as [|case rest IH]; intros i; simpl; [done|].
  by destruct (case_text case).
Qed.

Lemma annotate_no_keywords_all (l : list dict) : annotate [] <$> l = l.
Proof.
  induction l as [|c l IH]; [done|].
  by rewrite fmap_cons, annotate_no_keywords, IH.
Qed.

Lemma search_similar_text case_data user_input :
  Forall has_text case_data ->
  _search_similar_cases case_data user_input
  = (annotate (user_keywords_of user_input) <$> case_data,
     Ok (take 3 ((ranked user_input case_data).*2))).
Proof.
  intros Htext. unfold _search_similar_cases, ranked.
  destruct case_data as [|case0 rest0] eqn:Hdata; [done|]. rewrite <- Hdata in *.
  destruct (user_keywords_of user_input) as [|kw0 kws] eqn:Huk.
  - by rewrite hits_no_keywords, annotate_no_keywords_all.
  - rewrite <- Huk.
    pose proof (search_loop_text (user_keywords_of user_input) case_data
                  Htext [] []) as Hloop.
    simpl in Hloop. rewrite Hloop. f_equal.
    unfold sort_by_score_reverse. rewrite keyed_scores; [done|].
    apply Forall_forall. intros j Hj. by apply hits_score.
Qed.

Lemma ranked_elem user_input case_data x :
  x ∈ ranked user_input case_data <->
  fst x = score_at user_input case_data (snd x)
  /\ 0 < score_at user_input case_data (snd x).
Proof.
  unfold ranked. rewrite sort_desc_perm, list_elem_of_fmap.
  setoid_rewrite hits_score. split.
  - by intros (j & -> & Hj).
  - intros [Hk Hp]. exists (snd x). split; [|done].
    destruct x as [k j]. simpl in *. by rewrite Hk.
Qed.

Lemma ranked_sorted user_input case_data :
  StronglySorted before (ranked user_input case_data).
Proof.
  apply sort_desc_sorted.
  pose proof (hits_sorted (user_keywords_of user_input) case_data 0) as Hs.
  induction Hs as [|j l Hl IH Hj]; simpl; constructor; [done|].
  rewrite Forall_fmap. eapply Forall_impl; [exact Hj|]. done.
Qed.

Lemma before_ranks user_input case_data x y :
  x ∈ ranked user_input case_data -> y ∈ ranked user_input case_data ->
  before x y -> ranks_before user_input case_data (snd x) (snd y).
Proof.
  intros [Hx _]%ranked_elem [Hy _]%ranked_elem. unfold before, ranks_before.
  rewrite <- Hx, <- Hy. done.
Qed.

(** What a reference of the result is in the ranking. *)
Lemma result_lookup user_input case_data a r :
  take 3 ((ranked user_input case_data).*2) !! a = Some r ->
  exists x, (a < 3)%nat /\ ranked user_input case_data !! a = Some x
            /\ snd x = r.
Proof.
  intros [Hl Ha]%lookup_take_Some.
  apply list_lookup_fmap_Some in Hl as (x & Hx & ->). eauto.
Qed.

(** The first three of the ranking: at most three references, all with a
    positive score, in ranking order, and ranked before every position
    that has a positive score and is left out. *)
Lemma top3_of_ranked user_input case_data :
  let refs := take 3 ((ranked user_input case_data).*2) in
  (length refs <= 3)%nat
  /\ (forall r, r ∈ refs -> 0 < score_at user_input case_data r)
  /\ (forall a b ra rb,
        (a < b)%nat -> refs !! a = Some ra -> refs !! b = Some rb ->
        ranks_before user_input case_data ra rb)
  /\ (forall j,
        0 < score_at user_input case_data j -> j ∉ refs ->
        length refs = 3%nat
        /\ forall r, r ∈ refs -> ranks_before user_input case_data r j).
Proof.
  cbn zeta.
  pose proof (ranked_sorted user_input case_data) as Hsorted.
  split; [|split; [|split]].
  - rewrite length_take. lia.
  - intros r Hr. apply (subseteq_take 3) in Hr.
    apply list_elem_of_fmap in Hr as (x & -> & Hx).
    by apply ranked_elem in Hx as [_ Hp].
  - intros a b ra rb Hab (xa & _ & Ha & <-)%result_lookup
      (xb & _ & Hb & <-)%result_lookup.
    apply before_ranks; [by eapply list_elem_of_lookup_2..|].
    by eapply (StronglySorted_lookup _ _ Hsorted a b).
  - intros j Hj Hnot.
    assert ((score_at user_input case_data j, j) ∈ ranked user_input case_data)
      as Hin by (by apply ranked_elem).
    apply list_elem_of_lookup_1 in Hin as [p Hp].
    assert (3 <= p)%nat as Hge.
    { destruct (decide (p < 3)%nat) as [Hlt|]; [|lia]. exfalso. apply Hnot.
      apply (list_elem_of_lookup_2 _ p). rewrite lookup_take_lt by done.
      by rewrite list_lookup_fmap, Hp. }
    apply lookup_lt_Some in Hp as Hlen. split.
    + rewrite length_take, length_fmap. lia.
    + intros r [a (xa & Ha3 & Ha & <-)%result_lookup]%list_elem_of_lookup_1.
      change j with (snd (score_at user_input case_data j, j)).
      apply before_ranks; [by eapply list_elem_of_lookup_2..|].
      eapply (StronglySorted_lookup _ _ Hsorted a p); [lia|done..].
Qed.

(** A term without a space occurs in two texts joined by a space exactly
    when it occurs in one of them. *)
Lemma startswith_app_sep term c b :
  c ∉ term ->
  forall a, Py.startswith term (a ++ c :: b) = Py.startswith term a.
Proof.
  induction term as [|k term IH]; intros Hc a; [done|].
  apply not_elem_of_cons in Hc as [Hkc Hc]. destruct a as [|x a]; simpl.
  - by rewrite (proj2 (N.eqb_neq k c)) by congruence.
  - by rewrite IH.
Qed.

Lemma str_in_app_sep term c a b :
  c ∉ term -> term <> [] ->
  Py.str_in term (a ++ c :: b) = Py.str_in term a || Py.str_in term b.
Proof.
  intros Hc Hne. induction a as [|x a IH].
  - destruct term as [|k term]; [done|].
    apply not_elem_of_cons in Hc as [Hkc Hc]. cbn [app].
    change (Py.str_in (k :: term) (c :: b))
      with (Py.startswith (k :: term) (c :: b) || Py.str_in (k :: term) b).
    simpl. by rewrite (proj2 (N.eqb_neq k c)) by congruence.
  - cbn [app].
    change (Py.str_in term (x :: a ++ c :: b))
      with (Py.startswith term (x :: a ++ c :: b)
            || Py.str_in term (a ++ c :: b)).
    change (Py.str_in term (x :: a))
      with (Py.startswith term (x :: a) || Py.str_in term a).
    rewrite IH.
    change (Py.startswith term (x :: a ++ c :: b))
      with (Py.startswith term ((x :: a) ++ c :: b)).
    rewrite (startswith_app_sep term c b Hc (x :: a)).
    by rewrite orb_assoc.
Qed.

Lemma keywords_no_space term :
  In term keywords -> (32%N ∉ term) /\ term <> [].
Proof.
  intros Hin.
  assert (H : forallb
                (fun term =>
                   Splitter.nonempty term
                   && forallb (fun c => negb (c =? 32)%N) term)
                keywords = true) by (vm_compute; reflexivity).
  rewrite forallb_forall in H. specialize (H term Hin).
  apply andb_true_iff in H as [Hne Hsp]. split.
  - intros Hel. rewrite forallb_forall in Hsp.
    apply list_elem_of_In in Hel. specialize (Hsp _ Hel). done.
  - by destruct term.
Qed.

(** On a record with the three text fields, the score the code computes
    from its joined text is the score of the specification. *)
Lemma record_score_spec user_input case :
  has_text case -> record_score user_input case = spec_score user_input case.
Proof.
  intros ([a Ha] & [b Hb] & [d Hd]).
  unfold record_score, case_text, getitem. rewrite Ha, Hb, Hd.
  cbn [mbind result_bind rbind]. unfold shared_terms, spec_score.
  do 2 f_equal. apply List.filter_ext_in. intros term Hin.
  destruct (keywords_no_space term Hin) as [Hsp Hne].
  unfold term_in_record, field_text. rewrite Ha, Hb, Hd. f_equal.
  unfold sp. cbn [app].
  by rewrite !str_in_app_sep, orb_assoc by done.
Qed.

Lemma score_at_spec user_input case_data :
  Forall has_text case_data ->
  forall j, score_at user_input case_data j
            = spec_score_at user_input case_data j.
Proof.
  intros Htext j. unfold score_at, spec_score_at.
  destruct (case_data !! j) as [case|] eqn:Hj; [|done].
  apply record_score_spec. by eapply Forall_lookup_1.
Qed.

(** C2 (as the code has it): on a corpus whose records have the three
    text fields the keyword matcher returns at most three records; each
    shares at least one vocabulary term with the query; they are in
    descending order of the count of shared terms, records of equal count
    in corpus order; and a record that shares a term is left out only
    when three records ranked before it are returned. *)
Theorem keyword_match_top3 (case_data : list dict) (user_input : str) :
  Forall has_text case_data ->
  exists store refs,
    _search_similar_cases case_data user_input = (store, Ok refs)
    /\ (length refs <= 3)%nat
    /\ (forall r, r ∈ refs -> 0 < spec_score_at user_input case_data r)
    /\ (forall a b ra rb,
          (a < b)%nat -> refs !! a = Some ra -> refs !! b = Some rb ->
          spec_ranks_before user_input case_data ra rb)
    /\ (forall j,
          0 < spec_score_at user_input case_data j -> j ∉ refs ->
          length refs = 3%nat
          /\ forall r, r ∈ refs -> spec_ranks_before user_input case_data r j).
Proof.
  intros Htext. rewrite (search_similar_text _ _ Htext).
  eexists _, _. split; [reflexivity|].
  pose proof (score_at_spec user_input case_data Htext) as Hs.
  destruct (top3_of_ranked user_input case_data) as (Hlen & Hpos & Hord & Hout).
  unfold spec_ranks_before. unfold ranks_before in Hord, Hout.
  split; [done|]. split; [|split].
  - intros r Hr. rewrite <- Hs. by apply Hpos.
  - intros a b ra rb Hab Ha Hb. rewrite <- !Hs. by eapply Hord.
  - intros j Hj Hnot. rewrite <- Hs in Hj.
    destruct (Hout j Hj Hnot) as [H3 Hbefore]. split; [done|].
    intros r Hr. rewrite <- !Hs. by apply Hbefore.
Qed.

Lemma keyword_match_top3_witness :
  Forall has_text corpus_five
  /\ exists store refs,
    _search_similar_cases corpus_five query_crossing = (store, Ok refs)
    /\ (length refs <= 3)%nat
    /\ (forall r, r ∈ refs -> 0 < spec_score_at query_crossing corpus_five r)
    /\ (forall a b ra rb,
          (a < b)%nat -> refs !! a = Some ra -> refs !! b = Some rb ->
          spec_ranks_before query_crossing corpus_five ra rb)
    /\ (forall j,
          0 < spec_score_at query_crossing corpus_five j -> j ∉ refs ->
          length refs = 3%nat
          /\ forall r, r ∈ refs ->
               spec_ranks_before query_crossing corpus_five r j).
Proof.
  split; [repeat constructor; vm_compute; eauto|].
  apply (keyword_match_top3 corpus_five query_crossing).
  repeat constructor; vm_compute; eauto.
Defined.

(** C2 as stated, for every corpus, does not hold: on a corpus with a
    record that lacks its accident description, and a query with a
    vocabulary term, the matcher returns no records at all but raises
    the [KeyError] of the field, although the first record shares a term
    with the query. *)
Lemma keyword_match_raises_on_partial_corpus :
  snd (_search_similar_cases corpus_partial query_left_turn)
  = Err (KeyError "accident_description")
  /\ 0 < spec_score_at query_left_turn corpus_partial 0
  /\ ~ Forall has_text corpus_partial.
Proof.
  split; [vm_compute; reflexivity|]. split; [vm_compute; reflexivity|].
  intros H. apply Forall_cons in H as [_ H]. apply Forall_cons in H as [H _].
  destruct H as (_ & _ & [d Hd]). vm_compute in Hd. discriminate.
Qed.

Lemma case_text_has_text case text :
  case_text case = Ok text -> has_text case.
Proof.
  unfold case_text, getitem, has_text.
  destruct (case !! "vehicle_A_situation"); simpl; [|done].
  destruct (case !! "vehicle_B_situation"); simpl; [|done].
  destruct (case !! "accident_description"); simpl; [|done].
  eauto.
Qed.

(** The loop comes to its end only when every record it visits has its
    text. *)
Lemma search_loop_ok user_keywords rest :
  forall pre similar store refs,
    search_loop user_keywords (length rest) (length pre) (pre ++ rest) similar
    = (store, Ok refs) ->
    Forall has_text rest.
Proof.
  induction rest as [|case rest IH]; intros pre similar store refs Hrun;
    [constructor|].
  simpl in Hrun. rewrite list_lookup_middle in Hrun by done.
  destruct (case_text case) as [text|e] eqn:Htext; [|done].
  constructor; [by eapply case_text_has_text|].
  destruct (0 <? count_score user_keywords text 0).
  - rewrite insert_app_r_alt, Nat.sub_diag in Hrun by lia. simpl in Hrun.
    rewrite (cons_middle _ pre rest), app_assoc in Hrun.
    eapply (IH (pre ++ [_])). rewrite length_app, Nat.add_1_r. exact Hrun.
  - rewrite (cons_middle _ pre rest), app_assoc in Hrun.
    eapply (IH (pre ++ [_])). rewrite length_app, Nat.add_1_r. exact Hrun.
Qed.

(** Whatever the corpus, a result that is returned is the first three of
    the ranking. *)
Lemma search_similar_returned case_data user_input store refs :
  _search_similar_cases case_data user_input = (store, Ok refs) ->
  refs = take 3 ((ranked user_input case_data).*2).
Proof.
  intros Hrun.
  destruct (decide (case_data = [])) as [->|Hne].
  { by injection Hrun as _ <-. }
  destruct (user_keywords_of user_input) as [|kw0 kws] eqn:Huk.
  { unfold _search_similar_cases in Hrun. rewrite Huk in Hrun.
    unfold ranked. rewrite Huk, hits_no_keywords.
    destruct case_data; by injection Hrun as _ <-. }
  assert (Forall has_text case_data) as Htext.
  { unfold _search_similar_cases in Hrun. rewrite Huk in Hrun.
    destruct case_data as [|c0 rest0] eqn:Hdata; [done|]. rewrite <- Hdata in *.
    destruct (search_loop (kw0 :: kws) (length case_data) 0 case_data [])
      as [store' [similar|e]] eqn:Hloop; [|done].
    by eapply (search_loop_ok _ case_data []). }
  rewrite (search_similar_text _ _ Htext) in Hrun. by injection Hrun as _ <-.
Qed.

(** C3: a query that contains none of the vocabulary terms matches
    nothing, whatever the corpus, and the corpus is left as it was. *)
Theorem no_terms_no_match (case_data : list dict) (user_input : str) :
  Forall (fun kw => Py.str_in kw user_input = false) keywords ->
  _search_similar_cases case_data user_input = (case_data, Ok []).
Proof.
  intros Hnone. unfold _search_similar_cases.
  assert (user_keywords_of user_input = []) as ->.
  { unfold user_keywords_of. induction Hnone as [|kw l Hkw _ IH]; simpl; [done|].
    by rewrite Hkw. }
  by destruct case_data.
Qed.

Lemma no_terms_no_match_witness :
  Forall (fun kw => Py.str_in kw query_no_terms = false) keywords
  /\ _search_similar_cases corpus_five query_no_terms = (corpus_five, Ok []).
Proof.
  split.
  - repeat constructor.
  - apply (no_terms_no_match corpus_five query_no_terms).
    repeat constructor.
Defined.

(** *** What the matcher does to the corpus *)

Lemma annotate_idem user_keywords case :
  annotate user_keywords (annotate user_keywords case)
  = annotate user_keywords case.
Proof.
  unfold annotate. destruct (case_text case) as [text|e] eqn:Htext.
  - destruct (0 <? count_score user_keywords text 0) eqn:Hpos.
    + rewrite case_text_insert_score, Htext, Hpos. apply insert_insert_eq.
    + by rewrite Htext, Hpos.
  - by rewrite Htext.
Qed.

Lemma touched_refl user_keywords (l : list dict) :
  Forall2 (touched user_keywords) l l.
Proof. induction l; constructor; [by left | done]. Qed.

Lemma touched_step user_keywords (store store' : list dict) i case :
  store !! i = Some case ->
  Forall2 (touched user_keywords)
    (<[i := annotate user_keywords case]> store) store' ->
  Forall2 (touched user_keywords) store store'.
Proof.
  intros Hi H. apply Forall2_same_length_lookup in H as [Hlen H].
  rewrite length_insert in Hlen.
  apply Forall2_same_length_lookup. split; [done|]. intros j a b Ha Hb.
  destruct (decide (j = i)) as [->|Hne].
  - assert (a = case) as -> by congruence.
    destruct (H i (annotate user_keywords case) b) as [->| ->]; try done.
    + apply list_lookup_insert_eq. by eapply lookup_lt_Some.
    + by right.
    + right. apply annotate_idem.
  - apply (H j); [|done]. by rewrite list_lookup_insert_ne.
Qed.

Lemma search_loop_touched user_keywords n :
  forall i store similar,
    Forall2 (touched user_keywords) store
      (fst (search_loop user_keywords n i store similar)).
Proof.
  induction n as [|n IH]; intros i store similar; simpl.
  - apply touched_refl.
  - destruct (store !! i) as [case|] eqn:Hi; [|apply touched_refl].
    destruct (case_text case) as [text|e] eqn:Htext; [|apply touched_refl].
    destruct (0 <? count_score user_keywords text 0) eqn:Hpos; [|apply IH].
    eapply touched_step; [exact Hi|].
    replace (annotate user_keywords case)
      with (<[ss_key := VInt (count_score user_keywords text 0)]> case)
      by (unfold annotate; by rewrite Htext, Hpos).
    apply IH.
Qed.

Lemma search_similar_touched case_data user_input :
  Forall2 (touched (user_keywords_of user_input)) case_data
    (fst (_search_similar_cases case_data user_input)).
Proof.
  unfold _search_similar_cases.
  destruct case_data as [|case0 rest0] eqn:Hdata; [constructor|].
  rewrite <- Hdata. clear Hdata.
  destruct (user_keywords_of user_input) as [|kw0 kws] eqn:Huk;
    [apply touched_refl|]. rewrite <- Huk.
  pose proof (search_loop_touched (user_keywords_of user_input)
                (length case_data) 0 case_data []) as H.
  by destruct (search_loop _ _ _ _ _) as [store [similar|e]].
Qed.

Lemma annotate_record_score user_input case :
  annotate (user_keywords_of user_input) case
  = if 0 <? record_score user_input case
    then <[ss_key := VInt (record_score user_input case)]> case
    else case.
Proof.
  unfold annotate, record_score. destruct (case_text case) as [text|e]; [|done].
  by rewrite count_score_shared.
Qed.

(** When the matcher returns, every record has been visited. *)
Lemma search_similar_store_returned case_data user_input store refs :
  _search_similar_cases case_data user_input = (store, Ok refs) ->
  store = annotate (user_keywords_of user_input) <$> case_data.
Proof.
  intros Hrun.
  destruct (decide (case_data = [])) as [->|Hne].
  { by injection Hrun as <- _. }
  destruct (user_keywords_of user_input) as [|kw0 kws] eqn:Huk.
  { unfold _search_similar_cases in Hrun. rewrite Huk in Hrun.
    rewrite annotate_no_keywords_all.
    destruct case_data; by injection Hrun as <- _. }
  assert (Forall has_text case_data) as Htext.
  { unfold _search_similar_cases in Hrun. rewrite Huk in Hrun.
    destruct case_data as [|c0 rest0] eqn:Hdata; [done|]. rewrite <- Hdata in *.
    destruct (search_loop (kw0 :: kws) (length case_data) 0 case_data [])
      as [store' [similar|e]] eqn:Hloop; [|done].
    by eapply (search_loop_ok _ case_data []). }
  rewrite <- Huk. rewrite (search_similar_text _ _ Htext) in Hrun.
  by injection Hrun as <- _.
Qed.

(** C8 (as the code has it): the matcher keeps the corpus in place and
    leaves every field of every record as it was, except
    [similarity_score]: a record is either untouched or has its positive
    score written into that field, and when the matcher returns, the
    records with a positive score are exactly those that carry it. *)
Theorem keyword_match_frame (case_data : list dict) (user_input : str)
    (i : nat) (case : dict) :
  case_data !! i = Some case ->
  exists case',
    fst (_search_similar_cases case_data user_input) !! i = Some case'
    /\ length (fst (_search_similar_cases case_data user_input))
       = length case_data
    /\ (forall key, key <> ss_key -> case' !! key = case !! key)
    /\ (case' = case
        \/ (0 < record_score user_input case
            /\ case' = <[ss_key := VInt (record_score user_input case)]> case))
    /\ (forall refs,
          snd (_search_similar_cases case_data user_input) = Ok refs ->
          case' = if 0 <? record_score user_input case
                  then <[ss_key := VInt (record_score user_input case)]> case
                  else case).
Proof.
  intros Hi.
  pose proof (search_similar_touched case_data user_input) as H.
  apply Forall2_same_length_lookup in H as [Hlen H].
  destruct (lookup_lt_is_Some_2 (fst (_search_similar_cases case_data user_input)) i)
    as [case' Hi'].
  { rewrite <- Hlen. by eapply lookup_lt_Some. }
  exists case'. split; [done|]. split; [done|].
  assert (case' = case
          \/ (0 < record_score user_input case
              /\ case' = <[ss_key := VInt (record_score user_input case)]> case))
    as Hcase.
  { destruct (H i case case' Hi Hi') as [->| ->]; [by left|].
    rewrite annotate_record_score.
    destruct (0 <? record_score user_input case) eqn:Hpos; [|by left].
    right. split; [by apply Z.ltb_lt|done]. }
  split; [|split; [done|]].
  - intros key Hkey.
    destruct Hcase as [->|[_ ->]]; [done|]. by rewrite lookup_insert_ne.
  - intros refs Hrefs.
    destruct (_search_similar_cases case_data user_input) as [store found]
      eqn:Hrun.
    simpl in Hrefs, Hi'. subst found.
    apply search_similar_store_returned in Hrun. subst store.
    rewrite list_lookup_fmap, Hi in Hi'. simpl in Hi'.
    injection Hi' as <-. apply annotate_record_score.
Qed.

Lemma keyword_match_frame_witness :
  corpus_A1 !! 0%nat
  = Some (mk_case "A1" "직진" "좌회전" "교차로 충돌" "30:70")
  /\ exists case',
    fst (_search_similar_cases corpus_A1 query_left_turn) !! 0%nat = Some case'
    /\ length (fst (_search_similar_cases corpus_A1 query_left_turn))
       = length corpus_A1
    /\ (forall key, key <> ss_key ->
          case' !! key
          = mk_case "A1" "직진" "좌회전" "교차로 충돌" "30:70" !! key)
    /\ (case' = mk_case "A1" "직진" "좌회전" "교차로 충돌" "30:70"
        \/ (0 < record_score query_left_turn
                  (mk_case "A1" "직진" "좌회전" "교차로 충돌" "30:70")
            /\ case'
               = <[ss_key := VInt (record_score query_left_turn
                    (mk_case "A1" "직진" "좌회전" "교차로 충돌" "30:70"))]>
                   (mk_case "A1" "직진" "좌회전" "교차로 충돌" "30:70")))
    /\ (forall refs,
          snd (_search_similar_cases corpus_A1 query_left_turn) = Ok refs ->
          case'
          = if 0 <? record_score query_left_turn
                      (mk_case "A1" "직진" "좌회전" "교차로 충돌" "30:70")
            then <[ss_key := VInt (record_score query_left_turn
                    (mk_case "A1" "직진" "좌회전" "교차로 충돌" "30:70"))]>
                   (mk_case "A1" "직진" "좌회전" "교차로 충돌" "30:70")
            else mk_case "A1" "직진" "좌회전" "교차로 충돌" "30:70").
Proof.
  split; [reflexivity|].
  apply (keyword_match_frame corpus_A1 query_left_turn 0).
  reflexivity.
Defined.

(** C8 as stated does not hold: after matching the query against the
    one-record corpus, the record has a [similarity_score] field it did
    not have before. *)
Lemma keyword_match_adds_field :
  (corpus_A1 !! 0%nat) ≫= (fun case => case !! ss_key) = None
  /\ (fst (_search_similar_cases corpus_A1 query_left_turn) !! 0%nat)
       ≫= (fun case => case !! ss_key) = Some (VInt 1)
  /\ fst (_search_similar_cases corpus_A1 query_left_turn) <> corpus_A1.
Proof.
  assert ((fst (_search_similar_cases corpus_A1 query_left_turn) !! 0%nat)
            ≫= (fun case => case !! ss_key) = Some (VInt 1)) as Hnew
    by (vm_compute; reflexivity).
  assert ((corpus_A1 !! 0%nat) ≫= (fun case => case !! ss_key) = None) as Hold
    by (vm_compute; reflexivity).
  split; [done|]. split; [done|].
  intros Heq. rewrite Heq, Hold in Hnew. clear Heq Hold. discriminate.
Qed.

(** ** The record normalizer *)

Ltac lookup_cases case :=
  repeat match goal with
  | |- context [case !! ?k] =>
    let H := fresh "H" in destruct (case !! k) eqn:H; simpl
  end.

Lemma case_document_ok case :
  has_fields case -> exists doc, case_document case = Ok doc.
Proof.
  intros ([c Hc] & ([a Ha] & [b Hb] & [d Hd]) & [r Hr]).
  unfold case_document, case_content, getitem.
  rewrite Hc, Ha, Hb, Hd, Hr. simpl. eauto.
Qed.

Lemma case_document_err case :
  ~ has_fields case -> exists e, case_document case = Err e.
Proof.
  intros Hnot. unfold case_document, case_content, getitem.
  lookup_cases case; eauto.
  exfalso. apply Hnot. unfold has_fields, has_text. eauto 10.
Qed.

Lemma load_loop_ok cases :
  Forall has_fields cases ->
  forall documents, exists docs,
    load_loop cases documents = Ok (documents ++ docs)
    /\ Forall2 (fun case doc => case_document case = Ok doc) cases docs.
Proof.
  induction 1 as [|case rest Hcase _ IH]; intros documents; simpl.
  - exists []. by rewrite app_nil_r.
  - destruct (case_document_ok _ Hcase) as [doc Hdoc]. rewrite Hdoc. simpl.
    destruct (IH (documents ++ [doc])) as (docs & Hl & Hdocs).
    exists (doc :: docs). rewrite Hl, <- app_assoc. split; [done|].
    by constructor.
Qed.

Lemma load_loop_err cases :
  Exists (fun case => ~ has_fields case) cases ->
  forall documents, exists e, load_loop cases documents = Err e.
Proof.
  induction 1 as [case rest Hcase|case rest _ IH]; intros documents; simpl.
  - destruct (case_document_err _ Hcase) as [e He]. rewrite He. simpl. eauto.
  - destruct (case_document case) as [doc|e]; simpl; eauto.
Qed.

(** C6 (as the code has it): normalization is all or nothing and never
    raises.  When some record lacks a required field the whole load is
    given up: one error is logged and no document is returned, those of
    the well-formed records included.  When every record has its fields,
    the canonical document of each record is returned, in corpus order. *)
Theorem load_accident_cases_all_or_nothing (cases : list dict) :
  (Exists (fun case => ~ has_fields case) cases ->
   exists e, load_accident_cases (Ok cases) = ([], [load_failed e]))
  /\ (Forall has_fields cases ->
      exists docs,
        fst (load_accident_cases (Ok cases)) = docs
        /\ Forall2 (fun case doc => case_document case = Ok doc) cases docs).
Proof.
  unfold load_accident_cases. simpl. split.
  - intros Hbad. destruct (load_loop_err _ Hbad []) as [e He].
    rewrite He. by exists e.
  - intros Hgood. destruct (load_loop_ok _ Hgood []) as (docs & Hl & Hdocs).
    rewrite Hl. simpl. eauto.
Qed.

Lemma load_accident_cases_all_or_nothing_witness :
  (exists e, load_accident_cases (Ok corpus_partial) = ([], [load_failed e]))
  /\ (exists docs,
        fst (load_accident_cases (Ok corpus_A1)) = docs
        /\ Forall2 (fun case doc => case_document case = Ok doc)
             corpus_A1 docs).
Proof.
  split.
  - apply (proj1 (load_accident_cases_all_or_nothing corpus_partial)).
    apply Exists_cons_tl, Exists_cons_hd.
    intros (_ & (_ & _ & [d Hd]) & _). vm_compute in Hd. discriminate.
  - apply (proj2 (load_accident_cases_all_or_nothing corpus_A1)).
    repeat constructor; vm_compute; eauto.
Defined.

(** C6 as stated does not hold: of three records, the second without its
    description, two are well formed, and no document is returned. *)
Lemma load_accident_cases_drops_well_formed :
  length (well_formed_documents corpus_partial) = 2%nat
  /\ fst (load_accident_cases (Ok corpus_partial)) = []
  /\ fst (load_accident_cases (Ok corpus_partial))
     <> well_formed_documents corpus_partial.
Proof.
  assert (length (well_formed_documents corpus_partial) = 2%nat) as Hlen
    by (vm_compute; reflexivity).
  assert (fst (load_accident_cases (Ok corpus_partial)) = []) as Hnil
    by (vm_compute; reflexivity).
  split; [done|]. split; [done|].
  intros Heq. rewrite <- Heq, Hnil in Hlen. clear Heq Hnil. discriminate.
Qed.

(** ** Diagnosis when the completion service fails *)

(** C9 (as the code has it): when the completion-service call of a
    quick diagnosis raises an exception, the advisor (simple or enhanced)
    returns the fixed apology as the answer, with type and status "error"
    and the text of that exception in the separate error field, and
    leaves the conversation memory as it was; the functions are total, so
    nothing is raised to the caller.  A response is not checked for
    emptiness: whatever text this call returns is the answer, with status
    "success". *)
Theorem quick_diagnosis_on_failure
    (chain_invoke : list (string * str) -> result str)
    (case_data : list dict) (memory : list message)
    (user_input image_analysis : str) (e : exn) :
  (chain_invoke (simple_inputs user_input image_analysis) = Err e ->
   simple_quick_diagnosis chain_invoke memory user_input image_analysis
   = (memory, error_response e)
   /\ error (error_response e) = Some (exn_str e))
  /\ (forall store similar inputs,
        _search_similar_cases case_data user_input = (store, Ok similar) ->
        enhanced_inputs store similar user_input image_analysis = Ok inputs ->
        chain_invoke inputs = Err e ->
        enhanced_quick_diagnosis chain_invoke case_data memory user_input
          image_analysis
        = (store, memory, error_response e))
  /\ (forall text,
        chain_invoke (simple_inputs user_input image_analysis) = Ok text ->
        fst (simple_quick_diagnosis chain_invoke memory user_input
               image_analysis)
        = memory ++ [HumanMessage user_input; AIMessage text]
        /\ answer
             (snd (simple_quick_diagnosis chain_invoke memory user_input
                     image_analysis)) = text
        /\ status
             (snd (simple_quick_diagnosis chain_invoke memory user_input
                     image_analysis)) = st_success).
Proof.
  split; [|split].
  - intros He. unfold simple_quick_diagnosis.
    change [("user_input"%string, user_input);
            ("image_analysis"%string,
             str_or image_analysis no_image_analysis)]
      with (simple_inputs user_input image_analysis).
    by rewrite He.
  - intros store similar inputs Hsearch Hinputs He.
    unfold enhanced_quick_diagnosis. rewrite Hsearch.
    cbn [mbind result_bind rbind]. rewrite Hinputs.
    cbn [mbind result_bind rbind]. by rewrite He.
  - intros text Hok. unfold simple_quick_diagnosis.
    change [("user_input"%string, user_input);
            ("image_analysis"%string,
             str_or image_analysis no_image_analysis)]
      with (simple_inputs user_input image_analysis).
    by rewrite Hok.
Qed.

Lemma quick_diagnosis_on_failure_witness :
  simple_quick_diagnosis (fun _ => Err (Exception (Py.u "quota exceeded")))
    [] query_left_turn []
  = ([], error_response (Exception (Py.u "quota exceeded")))
  /\ error (error_response (Exception (Py.u "quota exceeded")))
     = Some (Py.u "quota exceeded").
Proof.
  apply (proj1 (quick_diagnosis_on_failure
                  (fun _ => Err (Exception (Py.u "quota exceeded")))
                  corpus_A1 [] query_left_turn []
                  (Exception (Py.u "quota exceeded")))).
  reflexivity.
Defined.

(** C9 as stated does not hold for an empty response: the advisor reports
    success with an empty answer, not the fixed message with an error
    status. *)
Lemma quick_diagnosis_empty_response :
  let r := snd (simple_quick_diagnosis chain_empty [] query_left_turn []) in
  answer r = [] /\ status r = st_success
  /\ answer r <> apology /\ status r <> st_error.
Proof.
  vm_compute. repeat split; discriminate.
Qed.

(** ** Retrieval when the vector index is unavailable *)

(** C1 (as the code has it): when the persisted vector index is missing
    or cannot be opened, or the retrieval chain raises, [get_advice]
    returns no retrieved evidence and does not raise: without an index it
    answers from the completion service alone, and on a failure it
    returns the fixed apology with status "error".  The vector query of
    the document processor degrades to the empty result in the same
    cases.  Neither consults the keyword matcher. *)
Theorem get_advice_without_index
    (qa_chain_call : str -> result QAResult) (llm_invoke : str -> result str)
    (vectorstore : option string) (question : str) :
  vectorstore = None \/ (exists e, qa_chain_call question = Err e) ->
  source_documents
    (get_advice qa_chain_call llm_invoke (_setup_chains vectorstore) question)
  = Some []
  /\ (vectorstore = None ->
      forall content, llm_invoke (general_prompt question) = Ok content ->
      get_advice qa_chain_call llm_invoke (_setup_chains vectorstore) question
      = mkResponse content None st_success None (Some []) None)
  /\ (forall name e,
        vectorstore = Some name -> qa_chain_call question = Err e ->
        get_advice qa_chain_call llm_invoke (_setup_chains vectorstore)
          question
        = mkResponse apology None st_error (Some (exn_str e)) (Some []) None).
Proof.
  intros H. unfold get_advice, get_advice_body. split; [|split].
  - destruct vectorstore as [name|]; simpl.
    + destruct H as [|[e He]]; [done|]. by rewrite He.
    + by destruct (llm_invoke (general_prompt question)).
  - intros -> content Hc. simpl. by rewrite Hc.
  - intros name e -> He. simpl. by rewrite He.
Qed.

Lemma get_advice_without_index_witness :
  (load_vectorstore unit broken_dir = None
   \/ (exists e, chain_down query_left_turn = Err e))
  /\ source_documents
       (get_advice chain_down llm_answers
          (_setup_chains (load_vectorstore unit broken_dir)) query_left_turn)
     = Some [].
Proof.
  split; [left; reflexivity|].
  apply (get_advice_without_index chain_down llm_answers
           (load_vectorstore unit broken_dir) query_left_turn).
  left. reflexivity.
Defined.

Lemma search_similar_cases_without_index {vector}
    (embed_query : str -> result vector) (distance : vector -> vector -> Z)
    (dir : PersistDir vector) (vectorstore : option string)
    (query : str) (k : nat) :
  corrupted vector dir = true
  \/ (exists e, embed_query query = Err e) ->
  snd (search_similar_cases vector embed_query distance dir vectorstore
         query k) = [].
Proof.
  unfold search_similar_cases, load_vectorstore, similarity_search_with_score.
  intros [Hc|[e He]].
  - rewrite Hc. by destruct vectorstore.
  - rewrite He. simpl.
    destruct vectorstore; simpl; by destruct (corrupted vector dir).
Qed.

(** C1 as stated does not hold: with an index that cannot be opened, a
    corpus of one record and a query with a vocabulary term, the keyword
    matcher finds the record, yet [get_advice] and the vector query
    return no evidence. *)
Lemma no_keyword_fallback :
  load_vectorstore unit broken_dir = None
  /\ matched_case_ids (_search_similar_cases corpus_A1 query_left_turn)
     = [Some (VStr (Py.u "A1"))]
  /\ evidence_case_ids
       (get_advice chain_down llm_answers
          (_setup_chains (load_vectorstore unit broken_dir)) query_left_turn)
     = []
  /\ snd (search_similar_cases unit (fun _ => Ok tt) (fun _ _ => 0)
            broken_dir None query_left_turn 5) = []
  /\ evidence_case_ids
       (get_advice chain_down llm_answers
          (_setup_chains (load_vectorstore unit broken_dir)) query_left_turn)
     <> matched_case_ids (_search_similar_cases corpus_A1 query_left_turn).
Proof.
  assert (matched_case_ids (_search_similar_cases corpus_A1 query_left_turn)
          = [Some (VStr (Py.u "A1"))]) as Hkw by (vm_compute; reflexivity).
  rewrite Hkw. repeat split; try reflexivity. discriminate.
Qed.

(** ** Request pacing *)

Lemma Config_getattr_GEMINI key name :
  name ∈ ["GEMINI_MODEL"; "GEMINI_VISION_MODEL"; "GEMINI_RATE_LIMIT";
          "GEMINI_OUTPUT_LIMIT"]%string ->
  Config_getattr key name = Err (AttributeError name).
Proof.
  intros H. repeat (apply elem_of_cons in H as [->|H]; [reflexivity|]).
  by apply elem_of_nil in H.
Qed.




(** ** The chunker *)

Lemma startswith_head a p s :
  Py.startswith (a :: p) s = true -> exists s', s = a :: s'.
Proof.
  destruct s as [|b s']; simpl; [done|].
  intros [Hab _]%andb_true_iff. apply N.eqb_eq in Hab as ->. eauto.
Qed.

Lemma str_in_no_space a p text :
  Py.isspace a = true -> no_space text -> Py.str_in (a :: p) text = false.
Proof.
  intros Ha. induction 1 as [|c text Hc _ IH].
  - done.
  - cbn [Py.str_in]. rewrite IH, orb_false_r.
    destruct (Py.startswith (a :: p) (c :: text)) eqn:Hs; [|done].
    apply startswith_head in Hs as [s' [= -> _]]. congruence.
Qed.

Lemma lstrip_no_space text : no_space text -> Py.lstrip text = text.
Proof. destruct 1 as [|c text Hc _]; simpl; [done|]. by rewrite Hc. Qed.

Lemma strip_no_space text : no_space text -> Py.strip text = text.
Proof.
  intros H. unfold Py.strip, Py.rstrip. rewrite (lstrip_no_space _ H).
  rewrite lstrip_no_space; [by rewrite rev_involutive|].
  by apply List.Forall_rev.
Qed.

Lemma join_chars text : Py.join [] (chars text) = text.
Proof.
  induction text as [|c text IH]; [done|].
  destruct text as [|c' text]; [done|].
  change (Py.join [] (chars (c :: c' :: text)))
    with ([c] ++ [] ++ Py.join [] (chars (c' :: text))).
  by rewrite IH.
Qed.

Lemma _join_docs_chars text :
  no_space text -> text <> [] ->
  Splitter._join_docs (chars text) [] = Some text.
Proof.
  intros Hns Hne. unfold Splitter._join_docs.
  rewrite join_chars, strip_no_space by done. by destruct text.
Qed.

Lemma chars_app l1 l2 : chars (l1 ++ l2) = chars l1 ++ chars l2.
Proof. unfold chars. apply fmap_app. Qed.

Lemma len_chars text : Splitter.len (chars text) = Splitter.len text.
Proof. unfold Splitter.len, chars. by rewrite length_fmap. Qed.

Lemma len_app {A} (l1 l2 : list A) :
  Splitter.len (l1 ++ l2) = Splitter.len l1 + Splitter.len l2.
Proof. unfold Splitter.len. rewrite length_app. lia. Qed.

Lemma len_nonneg {A} (l : list A) : 0 <= Splitter.len l.
Proof. unfold Splitter.len. lia. Qed.

Lemma len_cons {A} (x : A) (l : list A) :
  Splitter.len (x :: l) = Splitter.len l + 1.
Proof. unfold Splitter.len. simpl length. lia. Qed.

Lemma if_same {A} (b : bool) (x : A) : (if b then x else x) = x.
Proof. by destruct b. Qed.

Section TwoChunks.

Variable chunk_size chunk_overlap : Z.
Hypothesis overlap_bounds : 0 <= chunk_overlap < chunk_size.

(** A run of characters that still fits is appended to the current
    chunk. *)
Lemma merge_loop_fits l :
  forall docs current,
    Splitter.len current + Splitter.len l <= chunk_size ->
    Splitter.merge_loop chunk_size chunk_overlap [] (chars l) docs
      (chars current) (Splitter.len current)
    = (docs, chars (current ++ l), Splitter.len (current ++ l)).
Proof.
  induction l as [|c l IH]; intros docs current Hfit.
  - by rewrite app_nil_r.
  - rewrite len_cons in Hfit.
    pose proof (len_nonneg l) as Hl. pose proof (len_nonneg current) as Hc.
    cbn [chars fmap list_fmap Splitter.merge_loop].
    change (Splitter.len [c]) with 1. change (Splitter.len (@nil N)) with 0.
    rewrite if_same.
    replace (chunk_size <? Splitter.len current + 1 + 0) with false
      by (symmetry; apply Z.ltb_ge; lia).
    fold (chars l). rewrite if_same.
    change (chars current ++ [[c]]) with (chars current ++ chars [c]).
    rewrite <- chars_app.
    replace (Splitter.len current + 1 + 0) with (Splitter.len (current ++ [c]))
      by (rewrite len_app; change (Splitter.len [c]) with 1; lia).
    rewrite IH.
    + by rewrite <- app_assoc.
    + rewrite len_app. change (Splitter.len [c]) with 1. lia.
Qed.

(** When the next character does not fit, the front of the current chunk
    is dropped down to the overlap. *)
Lemma drop_front_chars l :
  chunk_overlap <= Splitter.len l ->
  Splitter.drop_front chunk_size chunk_overlap 0 1 (Splitter.len l) (chars l)
  = (chunk_overlap,
     chars (drop (length l - Z.to_nat chunk_overlap) l)).
Proof.
  induction l as [|c l IH]; intros Hle.
  - change (Splitter.len (@nil N)) with 0 in *. simpl.
    f_equal. lia.
  - pose proof (len_cons c l) as Hlen. pose proof (len_nonneg l) as Hl.
    cbn [chars fmap list_fmap Splitter.drop_front]. fold (chars l).
    destruct (chunk_overlap <? Splitter.len (c :: l)) eqn:Hlt.
    + apply Z.ltb_lt in Hlt. cbn [orb].
      change (Splitter.len [c]) with 1.
      rewrite if_same.
      replace (Splitter.len (c :: l) - (1 + 0)) with (Splitter.len l) by lia.
      rewrite IH by lia.
      replace (length (c :: l) - Z.to_nat chunk_overlap)%nat
        with (S (length l - Z.to_nat chunk_overlap))
        by (unfold Splitter.len in *; simpl length; lia).
      done.
    + apply Z.ltb_ge in Hlt. cbn [orb].
      replace (chunk_size <? Splitter.len (c :: l) + 1 + 0) with false
        by (symmetry; apply Z.ltb_ge; lia).
      cbn [andb].
      replace (length (c :: l) - Z.to_nat chunk_overlap)%nat with 0%nat
        by (unfold Splitter.len in *; simpl length in *; lia).
      f_equal. lia.
Qed.

Lemma merge_loop_app separator splits1 :
  forall splits2 docs current total,
    Splitter.merge_loop chunk_size chunk_overlap separator
      (splits1 ++ splits2) docs current total
    = let '(docs', current', total') :=
        Splitter.merge_loop chunk_size chunk_overlap separator splits1
          docs current total in
      Splitter.merge_loop chunk_size chunk_overlap separator splits2
        docs' current' total'.
Proof.
  induction splits1 as [|d splits1 IH]; intros splits2 docs current total;
    [done|].
  cbn [app Splitter.merge_loop].
  destruct (if chunk_size <? _ then _ else _) as [[docs1 current1] total1].
  apply IH.
Qed.

(** A text without white space that is longer than a chunk, and not
    longer than two chunks less their overlap, is merged into two chunks:
    the first [chunk_size] characters, and the rest together with the
    [chunk_overlap] characters before it. *)
Lemma _merge_splits_two_chunks text :
  no_space text ->
  chunk_size < Splitter.len text <= 2 * chunk_size - chunk_overlap ->
  Splitter._merge_splits chunk_size chunk_overlap (chars text) []
  = [take (Z.to_nat chunk_size) text;
     drop (Z.to_nat (chunk_size - chunk_overlap)) text].
Proof.
  intros Hns Hlen.
  assert (Splitter.len text = Z.of_nat (length text)) as Hlt by done.
  pose proof (take_drop (Z.to_nat chunk_size) text) as Hsplit.
  assert (length (take (Z.to_nat chunk_size) text) = Z.to_nat chunk_size)
    as Hl1 by (rewrite length_take; lia).
  assert (length (drop (Z.to_nat chunk_size) text)
          = (length text - Z.to_nat chunk_size)%nat) as Hl2
    by (by rewrite length_drop).
  set (l1 := take (Z.to_nat chunk_size) text) in *.
  destruct (drop (Z.to_nat chunk_size) text) as [|c l2] eqn:Hdrop;
    [simpl in Hl2; lia|].
  simpl in Hl2.
  assert (no_space l1 /\ no_space (c :: l2)) as [Hns1 Hns2].
  { unfold no_space in *. rewrite <- Hsplit in Hns.
    by apply Forall_app in Hns. }
  assert (Splitter.len l1 = chunk_size) as Hlen1
    by (unfold Splitter.len; lia).
  assert (Splitter.len l2 = Splitter.len text - chunk_size - 1) as Hlen2
    by (unfold Splitter.len; lia).
  assert (l1 <> []) as Hne1 by (intros E; rewrite E in Hl1; simpl in Hl1; lia).
  set (k := (length l1 - Z.to_nat chunk_overlap)%nat).
  assert (Splitter.len (drop k l1 ++ [c]) = chunk_overlap + 1) as Hlenk.
  { rewrite len_app. unfold Splitter.len. rewrite length_drop. simpl.
    unfold k. lia. }
  unfold Splitter._merge_splits.
  rewrite <- Hsplit at 1. rewrite chars_app, merge_loop_app.
  pose proof (merge_loop_fits l1 [] []) as Hfit1.
  change (chars []) with (@nil str) in Hfit1.
  change (Splitter.len (@nil N)) with 0 in Hfit1.
  rewrite Hfit1 by lia. clear Hfit1. simpl app.
  change (chars (c :: l2)) with ([c] :: chars l2).
  cbn [Splitter.merge_loop].
  change (Splitter.len [c]) with 1. change (Splitter.len (@nil N)) with 0.
  rewrite if_same.
  replace (chunk_size <? Splitter.len l1 + 1 + 0) with true
    by (symmetry; apply Z.ltb_lt; lia).
  destruct (chars l1) as [|d0 ds] eqn:Hchars.
  { destruct l1; [done|discriminate]. }
  rewrite <- Hchars. clear Hchars d0 ds.
  rewrite drop_front_chars by lia. fold k.
  rewrite _join_docs_chars by done. simpl Splitter.append_doc.
  rewrite if_same.
  change (chars (drop k l1) ++ [[c]]) with (chars (drop k l1) ++ chars [c]).
  rewrite <- chars_app.
  replace (chunk_overlap + 1 + 0) with (Splitter.len (drop k l1 ++ [c]))
    by lia.
  rewrite merge_loop_fits by lia.
  rewrite <- app_assoc. simpl app.
  rewrite _join_docs_chars.
  - simpl. do 2 f_equal. rewrite <- Hsplit.
    rewrite drop_app_le by lia. do 2 f_equal. unfold k. lia.
  - unfold no_space in *. apply Forall_app. split; [|done].
    by apply Forall_drop.
  - by destruct (drop k l1).
Qed.

Hypothesis size_above_one : 1 < chunk_size.

Lemma split_loop_chars recurse text :
  forall final_chunks good,
    Splitter.split_loop chunk_size chunk_overlap recurse (chars text)
      final_chunks good
    = Splitter.flush chunk_size chunk_overlap final_chunks
        (good ++ chars text).
Proof.
  induction text as [|c text IH]; intros final_chunks good.
  - by rewrite app_nil_r.
  - cbn [chars fmap list_fmap Splitter.split_loop]. fold (chars text).
    change (Splitter.len [c]) with 1.
    replace (1 <? chunk_size) with true by (symmetry; apply Z.ltb_lt; lia).
    rewrite IH, <- app_assoc. done.
Qed.

Lemma _split_text_with_regex_empty text :
  Splitter._split_text_with_regex text [] = chars text.
Proof.
  unfold Splitter._split_text_with_regex, chars.
  induction text as [|c text IH]; [done|]. simpl. by rewrite IH.
Qed.

(** With no white space in the text none of the three separators occurs,
    and the text is cut character by character. *)
Lemma split_text_no_space text :
  no_space text -> text <> [] ->
  Splitter.split_text chunk_size chunk_overlap text
  = Splitter._merge_splits chunk_size chunk_overlap (chars text) [].
Proof.
  intros Hns Hne. unfold Splitter.split_text, Splitter.separators.
  cbn [Splitter._split_text Splitter.nonempty negb].
  rewrite !str_in_no_space by done.
  rewrite _split_text_with_regex_empty, split_loop_chars. simpl app.
  unfold Splitter.flush. destruct text; [done|]. done.
Qed.

End TwoChunks.

(** C7 (as the code has it): with chunk_size 1000 and chunk_overlap 200 a
    text of length 1500 without white space, which therefore has none of
    the separators, gives exactly two chunks: its first 1000 characters,
    and its characters from offset 800 on. *)
Theorem split_1500_no_space (text : str) :
  length text = 1500%nat -> no_space text ->
  text_splitter_split_text text = [take 1000 text; drop 800 text].
Proof.
  intros Hlen Hns. unfold text_splitter_split_text.
  rewrite (split_text_no_space 1000 200) by (done || lia || by destruct text).
  rewrite (_merge_splits_two_chunks 1000 200); [done|lia|done|].
  unfold Splitter.len. lia.
Qed.

Lemma split_1500_no_space_witness :
  length (repeat 97%N 1500) = 1500%nat
  /\ no_space (repeat 97%N 1500)
  /\ text_splitter_split_text (repeat 97%N 1500)
     = [take 1000 (repeat 97%N 1500); drop 800 (repeat 97%N 1500)].
Proof.
  assert (no_space (repeat 97%N 1500)) as Hns.
  { apply Forall_forall. intros c Hc. apply list_elem_of_In in Hc.
    apply repeat_spec in Hc. by subst. }
  split; [vm_compute; reflexivity|]. split; [exact Hns|].
  apply (split_1500_no_space (repeat 97%N 1500)); [|exact Hns].
  vm_compute. reflexivity.
Defined.

(** C7 as stated does not hold: a text of length 1500 with a space after
    its first 999 letters is cut at the space, into chunks of 999 and 500
    characters; the second begins at offset 1000 and no character is
    shared. *)
Lemma split_1500_at_space :
  length text_999_500 = 1500%nat
  /\ text_splitter_split_text text_999_500
     = [repeat 97%N 999; repeat 98%N 500]
  /\ drop 1000 text_999_500 = repeat 98%N 500
  /\ Py.startswith (repeat 98%N 500) (drop 800 text_999_500) = false
  /\ text_splitter_split_text text_999_500
     <> [take 1000 text_999_500; drop 800 text_999_500].
Proof.
  assert (text_splitter_split_text text_999_500
          = [repeat 97%N 999; repeat 98%N 500]) as Hsplit
    by (vm_compute; reflexivity).
  rewrite Hsplit.
  split; [vm_compute; reflexivity|]. split; [reflexivity|].
  split; [vm_compute; reflexivity|]. split; [vm_compute; reflexivity|].
  intros H. apply (f_equal (fun l => length <$> l)) in H.
  vm_compute in H. discriminate.
Qed.

(** A text of white space only gives no chunk at all. *)
Example split_1500_spaces :
  text_splitter_split_text (repeat 32%N 1500) = [].
Proof. vm_compute. reflexivity. Qed.

(** ** Building the index *)

Section Rebuild.

Context {vector : Type}.
Variable embed_documents : list str -> result (list vector).
Variable embed_query : str -> result vector.
Variable distance : vector -> vector -> Z.
Variable after_failure :
  list (Entry vector) -> list Document -> list (Entry vector).



Lemma length_insert_asc {A} (x : Z * A) l :
  length (insert_asc x l) = S (length l).
Proof.
  induction l as [|y l IH]; simpl; [done|].
  destruct (fst x <=? fst y); simpl; [done|]. by rewrite IH.
Qed.

Lemma length_sorted_asc {A} (l : list (Z * A)) :
  length (foldr insert_asc [] l) = length l.
Proof.
  induction l as [|x l IH]; simpl; [done|].
  by rewrite length_insert_asc, IH.
Qed.

(** A query that can be embedded returns as many hits as the collection
    has entries, up to [k]. *)
Lemma search_similar_cases_length (dir : PersistDir vector) name query k q :
  corrupted vector dir = false -> embed_query query = Ok q ->
  length (snd (search_similar_cases vector embed_query distance dir
                 (Some name) query k))
  = (k `min` length (collection vector dir name))%nat.
Proof.
  intros Hc Hq. unfold search_similar_cases, similarity_search_with_score.
  rewrite Hc, Hq. simpl.
  rewrite !length_map, length_take, length_map, length_sorted_asc.
  by rewrite length_map.
Qed.

End Rebuild.




(** ** A failed build *)





(** ** Text utilities *)

Lemma spaced_from_weaken s : spaced_from true s -> spaced_from false s.
Proof.
  destruct s as [|c rest]; simpl; [done|].
  destruct (Py.isspace c); [|done]. by intros (_ & ? & _).
Qed.

Lemma collapse_spaces_spaced s :
  forall in_run, spaced_from in_run (collapse_spaces s in_run).
Proof.
  induction s as [|c rest IH]; intros in_run; simpl; [done|].
  destruct (Py.isspace c) eqn:Hc.
  - destruct in_run; [apply IH|]. simpl.
    change (Py.isspace 32) with true. cbn iota. auto.
  - simpl. rewrite Hc. apply IH.
Qed.

Lemma lstrip_suffix s : exists pre, s = pre ++ Py.lstrip s.
Proof.
  induction s as [|c rest [pre IH]]; simpl; [by exists []|].
  destruct (Py.isspace c); [|by exists []].
  exists (c :: pre). simpl. by rewrite <- IH.
Qed.

Lemma lstrip_head s c : head (Py.lstrip s) = Some c -> Py.isspace c = false.
Proof.
  induction s as [|c' rest IH]; simpl; [done|].
  destruct (Py.isspace c') eqn:Hc; [done|]. simpl. by intros [= <-].
Qed.

Lemma rstrip_prefix s : exists post, s = Py.rstrip s ++ post.
Proof.
  unfold Py.rstrip. destruct (lstrip_suffix (rev s)) as [pre Hpre].
  exists (rev pre). rewrite <- rev_app_distr, <- Hpre. by rewrite rev_involutive.
Qed.

Lemma last_rev_head {A} (l : list A) : last (rev l) = head l.
Proof. destruct l as [|x l]; [done|]. simpl. by rewrite last_snoc. Qed.

Lemma rstrip_last s c : last (Py.rstrip s) = Some c -> Py.isspace c = false.
Proof. unfold Py.rstrip. rewrite last_rev_head. apply lstrip_head. Qed.

Lemma spaced_from_lstrip s :
  spaced_from false s -> spaced_from true (Py.lstrip s).
Proof.
  destruct s as [|c rest]; simpl; [done|].
  destruct (Py.isspace c) eqn:Hc.
  - intros (_ & _ & Hrest). destruct rest as [|c' rest']; simpl in *; [done|].
    destruct (Py.isspace c') eqn:Hc'; [by destruct Hrest as (_ & ? & _)|].
    simpl. by rewrite Hc'.
  - intros Hrest. simpl. by rewrite Hc.
Qed.

Lemma spaced_from_app b s1 s2 : spaced_from b (s1 ++ s2) -> spaced_from b s1.
Proof.
  revert b. induction s1 as [|c rest IH]; intros b; simpl; [done|].
  destruct (Py.isspace c); [|apply IH].
  intros (? & ? & ?). eauto.
Qed.

Lemma spaced_from_elem b s c :
  spaced_from b s -> c ∈ s -> Py.isspace c = true -> c = 32%N.
Proof.
  revert b. induction s as [|c' rest IH]; intros b Hs Hin Hc.
  - by apply elem_of_nil in Hin.
  - simpl in Hs. apply elem_of_cons in Hin as [->|Hin].
    + rewrite Hc in Hs. by destruct Hs.
    + destruct (Py.isspace c'); [destruct Hs as (_ & _ & Hs)|]; eauto.
Qed.

Lemma spaced_from_adjacent b s i x y :
  spaced_from b s -> s !! i = Some x -> s !! S i = Some y ->
  Py.isspace x = true -> Py.isspace y = false.
Proof.
  revert b i. induction s as [|c rest IH]; intros b i Hs Hx Hy Hsp; [done|].
  simpl in Hs. destruct i as [|i]; simpl in Hx, Hy.
  - injection Hx as ->. rewrite Hsp in Hs. destruct Hs as (_ & _ & Hrest).
    destruct rest as [|c' rest']; [done|]. simpl in Hy. injection Hy as ->.
    simpl in Hrest. destruct (Py.isspace y); [|done].
    by destruct Hrest as (_ & ? & _).
  - destruct (Py.isspace c); [destruct Hs as (_ & _ & Hs)|]; eauto.
Qed.

Lemma spaced_from_true_head s c :
  spaced_from true s -> head s = Some c -> Py.isspace c = false.
Proof.
  destruct s as [|c' rest]; simpl; [done|]. intros Hs [= ->].
  destruct (Py.isspace c); [|done]. by destruct Hs as (_ & ? & _).
Qed.

(** What is left after collapsing the white space and stripping. *)
Lemma strip_collapse_single_spaced s :
  single_spaced (Py.strip (collapse_spaces s false)).
Proof.
  pose proof (spaced_from_lstrip _ (collapse_spaces_spaced s false)) as Hl.
  unfold Py.strip.
  destruct (rstrip_prefix (Py.lstrip (collapse_spaces s false))) as [post Hp].
  rewrite Hp in Hl. apply spaced_from_app in Hl.
  repeat split.
  - intros c. by apply (spaced_from_elem true).
  - intros i a b. by apply (spaced_from_adjacent true).
  - intros c. by apply spaced_from_true_head.
  - intros c. apply rstrip_last.
Qed.

(** X1: whatever the text, the cleaned text has its words separated by
    single spaces: all its white space is the space character, never two
    in a row and never at either end (so no line break is left). *)
Theorem clean_text_single_spaced (text : str) :
  single_spaced (clean_text text).
Proof.
  unfold clean_text. destruct text as [|c rest].
  - repeat split; try done. intros c Hc. by apply elem_of_nil in Hc.
  - apply strip_collapse_single_spaced.
Qed.

Lemma string_of_uint_digits d :
  List.map N_of_ascii (list_ascii_of_string (NilEmpty.string_of_uint d))
  = digit_char <$> uint_digits d.
Proof.
  induction d; simpl; [done|..]; by rewrite IHd.
Qed.

Lemma str_of_int_digits n :
  Py.str_of_int (Z.of_N n) = digit_char <$> digits_of n.
Proof.
  destruct n as [|p]; [done|].
  unfold Py.str_of_int, digits_of. simpl Z.of_N. simpl Z.to_int.
  unfold NilZero.string_of_int, NilZero.string_of_uint.
  pose proof (Unsigned.to_uint_nonnil p) as Hnil.
  destruct (Pos.to_uint p) eqn:Hp; [done|..];
    rewrite <- Hp; apply string_of_uint_digits.
Qed.

Lemma uint_digits_small d : Forall (fun x => (x < 10)%N) (uint_digits d).
Proof. induction d; simpl; constructor; (lia || done). Qed.

Lemma digits_of_small n : Forall (fun x => (x < 10)%N) (digits_of n).
Proof.
  destruct n; simpl; [repeat constructor; lia|]. apply uint_digits_small.
Qed.

Lemma digits_of_nonempty n : digits_of n <> [].
Proof.
  destruct n as [|p]; simpl; [done|].
  pose proof (Unsigned.to_uint_nonnil p). by destruct (Pos.to_uint p).
Qed.

Lemma fold_digits_acc d :
  forall acc,
    fold_left decimal_step (uint_digits d) (Npos acc)
    = Npos (Pos.of_uint_acc d acc).
Proof.
  induction d; intros acc; simpl; [done|..];
    (etransitivity; [|apply IHd]); f_equal; unfold decimal_step; lia.
Qed.

Lemma fold_digits d :
  fold_left decimal_step (uint_digits d) 0%N = Pos.of_uint d.
Proof.
  induction d; simpl; [done|exact IHd|..]; apply fold_digits_acc.
Qed.

(** Reading the digits of a number gives the number back. *)
Lemma digits_of_value n : fold_left decimal_step (digits_of n) 0%N = n.
Proof.
  destruct n as [|p]; [done|]. unfold digits_of.
  rewrite fold_digits. apply Unsigned.of_to.
Qed.

Section FaultRatioFacts.

Variable digit_value : N -> option N.
Variable int_max_str_digits : option nat.
Hypothesis ascii_digits : forall c, (c < 128)%N -> digit_value c = ascii_digit c.

Lemma digit_value_digit_char d :
  (d < 10)%N -> digit_value (digit_char d) = Some d.
Proof.
  intros Hd. unfold digit_char. rewrite ascii_digits by lia.
  unfold ascii_digit.
  replace ((48 <=? d + 48) && (d + 48 <=? 57))%N with true.
  - f_equal. lia.
  - symmetry. apply andb_true_iff. split; apply N.leb_le; lia.
Qed.

Lemma findall_digits_run ds :
  Forall (fun x => (x < 10)%N) ds ->
  forall rest cur,
    findall_digits digit_value ((digit_char <$> ds) ++ rest) cur
    = findall_digits digit_value rest (rev ds ++ cur).
Proof.
  induction 1 as [|d ds Hd _ IH]; intros rest cur; [done|].
  rewrite fmap_cons. simpl. rewrite digit_value_digit_char by done.
  rewrite IH. by rewrite <- app_assoc.
Qed.

Lemma findall_digits_ratio a b :
  findall_digits digit_value (fault_ratio_string a b) []
  = [digits_of a; digits_of b].
Proof.
  unfold fault_ratio_string. rewrite !str_of_int_digits.
  rewrite findall_digits_run by apply digits_of_small.
  rewrite app_nil_r.
  change (Py.u " : ") with [32; 58; 32]%N.
  pose proof (digits_of_nonempty a) as Ha.
  cbn [app findall_digits].
  rewrite !ascii_digits by lia. cbn [ascii_digit N.leb N.compare andb].
  change (ascii_digit 32) with (@None N).
  change (ascii_digit 58) with (@None N).
  destruct (rev (digits_of a)) as [|x xs] eqn:Hrev.
  { apply (f_equal (@rev N)) in Hrev. rewrite rev_involutive in Hrev. done. }
  rewrite <- Hrev, rev_involutive. f_equal.
  rewrite <- (app_nil_r (digit_char <$> digits_of b)).
  rewrite findall_digits_run by apply digits_of_small.
  rewrite app_nil_r. simpl.
  pose proof (digits_of_nonempty b) as Hb.
  destruct (rev (digits_of b)) as [|y ys] eqn:Hrevb.
  { apply (f_equal (@rev N)) in Hrevb. rewrite rev_involutive in Hrevb. done. }
  by rewrite <- Hrevb, rev_involutive.
Qed.

Lemma int_of_digits_of n :
  within_int_limit int_max_str_digits n ->
  int_of_digits int_max_str_digits (digits_of n) = Ok n.
Proof.
  unfold within_int_limit, int_of_digits. rewrite str_of_int_digits.
  fold decimal_step. rewrite digits_of_value.
  destruct int_max_str_digits as [limit|]; [|done].
  rewrite length_fmap. intros Hle.
  by replace (limit <? length (digits_of n))%nat with false
    by (symmetry; apply Nat.ltb_ge; lia).
Qed.

End FaultRatioFacts.

(** X2: the ratio the crawler writes for two numbers, [f"{a} : {b}"], is
    read back as these numbers, whenever the interpreter's digit table
    has the ASCII digits and its limit on digit strings admits both. *)
Theorem extract_fault_ratio_round_trip
    (digit_value : N -> option N) (int_max_str_digits : option nat)
    (a b : N) :
  (forall c, (c < 128)%N -> digit_value c = ascii_digit c) ->
  within_int_limit int_max_str_digits a ->
  within_int_limit int_max_str_digits b ->
  extract_fault_ratio digit_value int_max_str_digits (fault_ratio_string a b)
  = (Some a, Some b).
Proof.
  intros Hdv Ha Hb. unfold extract_fault_ratio.
  rewrite findall_digits_ratio by done.
  by rewrite !int_of_digits_of.
Qed.

Lemma extract_fault_ratio_round_trip_witness :
  extract_fault_ratio ascii_digit (Some 4300%nat) (fault_ratio_string 70 30)
  = (Some 70%N, Some 30%N).
Proof.
  apply (extract_fault_ratio_round_trip ascii_digit (Some 4300%nat) 70 30).
  - reflexivity.
  - vm_compute. lia.
  - vm_compute. lia.
Defined.

(** ** More on the keyword matcher *)

Lemma case_text_err case e :
  case_text case = Err e ->
  exists key,
    e = KeyError key
    /\ key ∈ ["vehicle_A_situation"; "vehicle_B_situation";
              "accident_description"]%string.
Proof.
  unfold case_text, getitem.
  destruct (case !! "vehicle_A_situation"); simpl;
    [|intros [= <-]; eexists; split; [done|set_solver]].
  destruct (case !! "vehicle_B_situation"); simpl;
    [|intros [= <-]; eexists; split; [done|set_solver]].
  destruct (case !! "accident_description"); simpl;
    [done|intros [= <-]; eexists; split; [done|set_solver]].
Qed.

Lemma search_loop_err user_keywords n :
  forall i store similar store' e,
    search_loop user_keywords n i store similar = (store', Err e) ->
    exists key,
      e = KeyError key
      /\ key ∈ ["vehicle_A_situation"; "vehicle_B_situation";
                "accident_description"]%string.
Proof.
  induction n as [|n IH]; intros i store similar store' e; simpl; [done|].
  destruct (store !! i) as [case|]; [|done].
  destruct (case_text case) as [text|e'] eqn:Htext.
  - destruct (0 <? count_score user_keywords text 0); apply IH.
  - intros [= _ <-]. by eapply case_text_err.
Qed.

(** X3: the matcher raises exactly when the corpus is not empty, the
    query has a vocabulary term and some record lacks one of the three
    text fields; what it raises is the [KeyError] of such a field. *)
Theorem search_similar_cases_raises (case_data : list dict) (user_input : str) :
  match snd (_search_similar_cases case_data user_input) with
  | Ok _ =>
    case_data = [] \/ user_keywords_of user_input = []
    \/ Forall has_text case_data
  | Err e =>
    case_data <> [] /\ user_keywords_of user_input <> []
    /\ ~ Forall has_text case_data
    /\ exists key,
         e = KeyError key
         /\ key ∈ ["vehicle_A_situation"; "vehicle_B_situation";
                   "accident_description"]%string
  end.
Proof.
  destruct (decide (case_data = [])) as [->|Hne]; [by left|].
  destruct (user_keywords_of user_input) as [|kw0 kws] eqn:Huk.
  { unfold _search_similar_cases. rewrite Huk.
    destruct case_data; simpl; auto. }
  destruct (_search_similar_cases case_data user_input) as [store found]
    eqn:Hrun.
  simpl. destruct found as [refs|e].
  - right. right. unfold _search_similar_cases in Hrun. rewrite Huk in Hrun.
    destruct case_data as [|c0 rest0] eqn:Hdata; [done|]. rewrite <- Hdata in *.
    destruct (search_loop (kw0 :: kws) (length case_data) 0 case_data [])
      as [store' [similar|e]] eqn:Hloop; [|done].
    by eapply (search_loop_ok _ case_data []).
  - split; [done|]. split; [done|]. split.
    + intros Htext. rewrite (search_similar_text _ _ Htext) in Hrun. done.
    + unfold _search_similar_cases in Hrun. rewrite Huk in Hrun.
      destruct case_data as [|c0 rest0] eqn:Hdata; [done|]. rewrite <- Hdata in *.
      destruct (search_loop (kw0 :: kws) (length case_data) 0 case_data [])
        as [store' [similar|e']] eqn:Hloop.
      * exfalso. pose proof (search_loop_ok _ case_data [] _ _ _ Hloop) as Ht.
        rewrite <- Huk in Hloop.
        pose proof (search_loop_text (user_keywords_of user_input) case_data
                      Ht [] []) as Hl.
        simpl in Hl. rewrite Hl in Hloop. injection Hloop as <- <-.
        unfold sort_by_score_reverse in Hrun.
        rewrite Huk in Hrun. rewrite <- Huk in Hrun.
        rewrite keyed_scores in Hrun; [done|].
        apply Forall_forall. intros j Hj. by apply hits_score.
      * injection Hrun as _ <-. by eapply search_loop_err.
Qed.

Lemma case_text_annotate user_keywords case :
  case_text (annotate user_keywords case) = case_text case.
Proof.
  unfold annotate. destruct (case_text case) as [text|e] eqn:Htext; [|done].
  destruct (0 <? count_score user_keywords text 0); [|done].
  by rewrite case_text_insert_score.
Qed.

Lemma has_text_annotate user_keywords case :
  has_text case -> has_text (annotate user_keywords case).
Proof.
  intros [text Htext]%has_text_case_text.
  apply (case_text_has_text _ text). by rewrite case_text_annotate.
Qed.

Lemma hits_annotate user_keywords user_keywords' rest :
  forall i,
    hits user_keywords i (annotate user_keywords' <$> rest)
    = hits user_keywords i rest.
Proof.
  induction rest as [|case rest IH]; intros i; [done|].
  rewrite fmap_cons. simpl. rewrite case_text_annotate, !IH. done.
Qed.

Lemma score_at_annotate user_input user_keywords' case_data j :
  score_at user_input (annotate user_keywords' <$> case_data) j
  = score_at user_input case_data j.
Proof.
  unfold score_at, record_score. rewrite list_lookup_fmap.
  destruct (case_data !! j) as [c|]; simpl; [|done].
  by rewrite case_text_annotate.
Qed.

Lemma ranked_annotate user_input user_keywords' case_data :
  ranked user_input (annotate user_keywords' <$> case_data)
  = ranked user_input case_data.
Proof.
  unfold ranked. rewrite hits_annotate. f_equal.
  apply list_fmap_ext. intros _ j _. by rewrite score_at_annotate.
Qed.

(** X4: the scores an earlier query left in the records do not leak into
    a later one.  On a corpus of records with text, a query after any
    other query returns the references it returns on the untouched
    corpus; every record it returns carries its score for this query in
    [similarity_score]; and asking the same query again changes
    nothing. *)
Theorem search_similar_cases_no_stale_scores
    (case_data : list dict) (earlier user_input : str) :
  Forall has_text case_data ->
  snd (_search_similar_cases
         (fst (_search_similar_cases case_data earlier)) user_input)
  = snd (_search_similar_cases case_data user_input)
  /\ (forall refs r,
        snd (_search_similar_cases
               (fst (_search_similar_cases case_data earlier)) user_input)
        = Ok refs ->
        r ∈ refs ->
        (fst (_search_similar_cases
                (fst (_search_similar_cases case_data earlier)) user_input)
           !! r) ≫= (fun case => case !! ss_key)
        = Some (VInt (score_at user_input case_data r)))
  /\ _search_similar_cases
       (fst (_search_similar_cases case_data user_input)) user_input
     = _search_similar_cases case_data user_input.
Proof.
  intros Htext.
  assert (forall q, Forall has_text (annotate (user_keywords_of q) <$> case_data))
    as Htext'.
  { intros q. apply Forall_fmap. eapply Forall_impl; [exact Htext|].
    intros c. apply has_text_annotate. }
  rewrite !(search_similar_text case_data) by done. cbn [fst snd].
  rewrite !search_similar_text by done. cbn [fst snd].
  rewrite !ranked_annotate. split; [done|]. split.
  - intros refs r [= <-] Hr.
    assert (0 < score_at user_input case_data r) as Hpos.
    { apply (subseteq_take 3) in Hr.
      apply list_elem_of_fmap in Hr as (x & -> & Hx).
      by apply ranked_elem in Hx as [_ Hp]. }
    pose proof (sort_key_annotated user_input
                  (annotate (user_keywords_of earlier) <$> case_data) r) as Hk.
    rewrite score_at_annotate in Hk. specialize (Hk Hpos).
    unfold sort_key, getitem in Hk.
    destruct ((annotate (user_keywords_of user_input)
                 <$> (annotate (user_keywords_of earlier) <$> case_data)) !! r)
      as [c|]; [|done]. simpl.
    destruct (c !! "similarity_score") as [[s|z]|] eqn:Hss; try done.
    unfold ss_key. rewrite Hss. by injection Hk as ->.
  - f_equal. rewrite <- list_fmap_compose. apply list_fmap_ext.
    intros _ c _. simpl. apply annotate_idem.
Qed.

Lemma search_similar_cases_no_stale_scores_witness :
  snd (_search_similar_cases
         (fst (_search_similar_cases corpus_five query_left_turn))
         query_crossing)
  = snd (_search_similar_cases corpus_five query_crossing).
Proof.
  apply (search_similar_cases_no_stale_scores corpus_five query_left_turn
           query_crossing).
  repeat constructor; vm_compute; eauto.
Defined.

(** ** Conversations *)

Lemma exchanges_cons ua exs :
  exchanges (ua :: exs)
  = HumanMessage (fst ua) :: AIMessage (snd ua) :: exchanges exs.
Proof. done. Qed.

Lemma last_n_exchanges exs :
  last_n 6 (exchanges exs) = exchanges (last_n 3 exs).
Proof.
  unfold last_n.
  assert (forall l, length (exchanges l) = (2 * length l)%nat) as Hlen.
  { induction l as [|x l IH]; [done|].
    rewrite exchanges_cons. cbn [length]. rewrite IH. lia. }
  assert (forall k l, drop (2 * k) (exchanges l) = exchanges (drop k l))
    as Hdrop.
  { induction k as [|k IH]; intros l; [done|]. destruct l as [|x l]; [done|].
    replace (2 * S k)%nat with (S (S (2 * k))) by lia.
    rewrite exchanges_cons. cbn [drop]. apply IH. }
  rewrite Hlen. replace (2 * length exs - 6)%nat with (2 * (length exs - 3))%nat
    by lia.
  apply Hdrop.
Qed.

Lemma exchanges_app exs1 exs2 :
  exchanges (exs1 ++ exs2) = exchanges exs1 ++ exchanges exs2.
Proof. unfold exchanges. apply flat_map_app. Qed.

Lemma detailed_analysis_memory detail_invoke memory user_input :
  fst (detailed_analysis detail_invoke memory user_input) = memory
  \/ exists text,
       fst (detailed_analysis detail_invoke memory user_input)
       = memory ++ exchange (user_input, text).
Proof.
  unfold detailed_analysis.
  destruct (detail_invoke _) as [text|e]; [right; by exists text|by left].
Qed.

Lemma enhanced_quick_diagnosis_memory quick_invoke case_data memory
    user_input image_analysis :
  snd (fst (enhanced_quick_diagnosis quick_invoke case_data memory user_input
              image_analysis)) = memory
  \/ exists text,
       snd (fst (enhanced_quick_diagnosis quick_invoke case_data memory
                   user_input image_analysis))
       = memory ++ exchange (user_input, text).
Proof.
  unfold enhanced_quick_diagnosis.
  destruct (_search_similar_cases case_data user_input) as [store found].
  destruct found as [similar|e]; simpl; [|by left].
  destruct (enhanced_inputs store similar user_input image_analysis)
    as [inputs|e]; simpl; [|by left].
  destruct (quick_invoke inputs) as [text|e]; simpl;
    [right; by exists text|by left].
Qed.

Lemma enhanced_turn_memory quick_invoke detail_invoke s t :
  snd (enhanced_turn quick_invoke detail_invoke s t) = []
  \/ snd (enhanced_turn quick_invoke detail_invoke s t) = snd s
  \/ exists ua,
       snd (enhanced_turn quick_invoke detail_invoke s t)
       = snd s ++ exchange ua.
Proof.
  destruct t as [user_input image_analysis|]; simpl; [|by left]. right.
  unfold enhanced_analyze_with_context.
  destruct (is_detail_request user_input).
  - pose proof (detailed_analysis_memory detail_invoke (snd s) user_input) as H.
    destruct (detailed_analysis detail_invoke (snd s) user_input) as [m r].
    simpl in *. destruct H as [->|[text ->]]; [by left|right; eauto].
  - destruct (enhanced_quick_diagnosis_memory quick_invoke (fst s) (snd s)
                user_input image_analysis) as [->|[text ->]];
      [by left|right; eauto].
Qed.

(** X5: in a session of the enhanced advisor that starts from a memory of
    whole exchanges (an empty one, say), the memory always consists of
    whole exchanges, a user message followed by its reply, whatever fails
    on the way; so the six messages a detailed analysis reads are the
    last three exchanges, never a reply without its request. *)
Theorem enhanced_session_whole_exchanges
    (quick_invoke detail_invoke : list (string * str) -> result str)
    (case_data : list dict) (exs0 : list (str * str)) (ts : list turn) :
  exists exs,
    snd (enhanced_session quick_invoke detail_invoke
           (case_data, exchanges exs0) ts) = exchanges exs
    /\ (length exs <= length exs0 + length ts)%nat
    /\ last_n 6
         (snd (enhanced_session quick_invoke detail_invoke
                 (case_data, exchanges exs0) ts))
       = exchanges (last_n 3 exs).
Proof.
  assert (forall ts s exs0,
            snd s = exchanges exs0 ->
            exists exs,
              snd (enhanced_session quick_invoke detail_invoke s ts)
              = exchanges exs
              /\ (length exs <= length exs0 + length ts)%nat) as H.
  { clear. induction ts as [|t ts IH]; intros s exs0 Hs.
    - exists exs0. split; [done|]. simpl. lia.
    - simpl.
      destruct (enhanced_turn_memory quick_invoke detail_invoke s t)
        as [Hm|[Hm|[ua Hm]]].
      + destruct (IH (enhanced_turn quick_invoke detail_invoke s t) [])
          as (exs & He & Hl); [done|].
        exists exs. split; [done|]. simpl in *. lia.
      + destruct (IH (enhanced_turn quick_invoke detail_invoke s t) exs0)
          as (exs & He & Hl); [congruence|].
        exists exs. split; [done|]. simpl. lia.
      + destruct (IH (enhanced_turn quick_invoke detail_invoke s t)
                    (exs0 ++ [ua])) as (exs & He & Hl).
        { rewrite Hm, Hs, exchanges_app. done. }
        exists exs. split; [done|]. rewrite length_app in Hl. simpl in *. lia. }
  destruct (H ts (case_data, exchanges exs0) exs0) as (exs & He & Hl); [done|].
  exists exs. split; [done|]. split; [done|].
  rewrite He. apply last_n_exchanges.
Qed.





(** ** The quick diagnosis with cases *)

Lemma annotate_lookup_ne user_keywords (case : dict) key :
  key <> ss_key -> annotate user_keywords case !! key = case !! key.
Proof.
  intros Hne. unfold annotate. destruct (case_text case) as [text|e]; [|done].
  destruct (0 <? count_score user_keywords text 0); [|done].
  by rewrite lookup_insert_ne.
Qed.





Lemma ranked_in_range user_input case_data r :
  r ∈ take 3 ((ranked user_input case_data).*2) ->
  exists case, case_data !! r = Some case.
Proof.
  intros Hr. apply (subseteq_take 3) in Hr.
  apply list_elem_of_fmap in Hr as (x & -> & Hx).
  apply ranked_elem in Hx as [_ Hp]. unfold score_at in Hp.
  destruct (case_data !! x.2); [eauto|lia].
Qed.




Lemma case_example_line_missing case :
  case !! "case_id" = None \/ case !! "fault_ratio" = None ->
  exists key,
    key ∈ ["case_id"; "fault_ratio"]%string
    /\ case_example_line case = Err (KeyError key).
Proof.
  unfold case_example_line, getitem.
  destruct (case !! "case_id") as [c|] eqn:Hc; simpl.
  - intros [?| ->]; [done|]. simpl. exists "fault_ratio"%string.
    split; [set_solver|done].
  - intros _. exists "case_id"%string. split; [set_solver|done].
Qed.

Lemma case_example_line_cases case :
  (exists l, case_example_line case = Ok l)
  \/ (case !! "case_id" = None \/ case !! "fault_ratio" = None).
Proof.
  unfold case_example_line, getitem.
  destruct (case !! "case_id"); simpl; [|by right; left].
  destruct (case !! "fault_ratio"); simpl; [left; eauto|by right; right].
Qed.

Lemma format_examples_err (store : list dict) refs :
  Forall (fun r => is_Some (store !! r)) refs ->
  (exists r case,
     r ∈ refs /\ store !! r = Some case
     /\ (case !! "case_id" = None \/ case !! "fault_ratio" = None)) ->
  exists key,
    key ∈ ["case_id"; "fault_ratio"]%string
    /\ format_cases case_example_line store refs = Err (KeyError key).
Proof.
  induction 1 as [|r0 refs [c0 Hr0] _ IH]; intros (r & case & Hr & Hcase & Hmiss).
  { by apply elem_of_nil in Hr. }
  simpl. unfold get_case. rewrite Hr0. simpl.
  destruct (case_example_line_cases c0) as [[l Hl]|Hmiss0].
  - rewrite Hl. simpl. apply elem_of_cons in Hr as [->|Hr].
    + assert (c0 = case) as -> by congruence.
      destruct (case_example_line_missing _ Hmiss) as (key & _ & Hk).
      congruence.
    + destruct IH as (key & Hkey & ->); [by exists r, case|].
      simpl. eauto.
  - destruct (case_example_line_missing _ Hmiss0) as (key & Hkey & ->).
    simpl. eauto.
Qed.

(** X8: a returned record that has no case id or no fault ratio turns the
    quick diagnosis into the apology, whatever the completion service
    would answer: the response is the error response of the [KeyError],
    the memory is as before, and the corpus has been scored all the
    same. *)
Theorem enhanced_quick_diagnosis_missing_field
    (quick_invoke : list (string * str) -> result str)
    (case_data : list dict) (memory : list message)
    (user_input image_analysis : str) (r : nat) (case : dict) :
  Forall has_text case_data ->
  r ∈ take 3 ((ranked user_input case_data).*2) ->
  case_data !! r = Some case ->
  case !! "case_id" = None \/ case !! "fault_ratio" = None ->
  exists key,
    key ∈ ["case_id"; "fault_ratio"]%string
    /\ enhanced_quick_diagnosis quick_invoke case_data memory user_input
         image_analysis
       = (annotate (user_keywords_of user_input) <$> case_data, memory,
          error_response (KeyError key)).
Proof.
  intros Htext Hr Hcase Hmiss. unfold enhanced_quick_diagnosis.
  rewrite search_similar_text by done. cbn [mbind result_bind rbind].
  destruct (format_examples_err
              (annotate (user_keywords_of user_input) <$> case_data)
              (take 3 ((ranked user_input case_data).*2)))
    as (key & Hkey & Hfmt).
  - apply Forall_forall. intros r' Hr'.
    destruct (ranked_in_range _ _ _ Hr') as [c' Hc'].
    rewrite list_lookup_fmap, Hc'. simpl. eauto.
  - exists r, (annotate (user_keywords_of user_input) case).
    split; [done|]. rewrite list_lookup_fmap, Hcase. split; [done|].
    by rewrite !annotate_lookup_ne.
  - exists key. split; [done|]. unfold enhanced_inputs.
    destruct (take 3 ((ranked user_input case_data).*2)) as [|r0 refs'];
      [by apply elem_of_nil in Hr|].
    rewrite Hfmt. done.
Qed.

Lemma enhanced_quick_diagnosis_missing_field_witness :
  exists key,
    key ∈ ["case_id"; "fault_ratio"]%string
    /\ enhanced_quick_diagnosis (fun _ => Ok (Py.u "answer")) corpus_no_id []
         query_left_turn []
       = (annotate (user_keywords_of query_left_turn) <$> corpus_no_id, [],
          error_response (KeyError key)).
Proof.
  apply (enhanced_quick_diagnosis_missing_field (fun _ => Ok (Py.u "answer"))
           corpus_no_id [] query_left_turn [] 0
           (case_no_id "직진" "좌회전" "교차로 충돌" "30:70")).
  - repeat constructor; vm_compute; eauto.
  - replace (take 3 ((ranked query_left_turn corpus_no_id).*2))
      with [0%nat] by (vm_compute; reflexivity).
    apply list_elem_of_here.
  - reflexivity.
  - left. vm_compute. reflexivity.
Defined.

(** ** Evidence previews and the command-line turn *)

Lemma length_preview doc :
  (length (sd_content (preview doc)) <= 303)%nat.
Proof.
  unfold preview. simpl. rewrite length_app, length_take.
  change (length (Py.u "...")) with 3%nat. lia.
Qed.

(** X9: the evidence [get_advice] returns is the list of previews of the
    documents the chain returned, one for each document and in the
    chain's order: the preview at a position has the metadata of the
    document at that position and, as its text, the first 300 characters
    of the page followed by three dots (the whole page when it is that
    short), at most 303 characters.  Without a chain, or when the chain
    raises or gives no answer, there is no evidence. *)
Theorem get_advice_previews
    (qa_chain_call : str -> result QAResult) (llm_invoke : str -> result str)
    (qa_chain : bool) (question : str) :
  let evidence :=
    default []
      (source_documents
         (get_advice qa_chain_call llm_invoke qa_chain question)) in
  (forall r a,
     qa_chain = true -> qa_chain_call question = Ok r ->
     qa_answer r = Some a ->
     length evidence = length (default [] (qa_source_documents r))
     /\ forall i doc,
          default [] (qa_source_documents r) !! i = Some doc ->
          exists sd,
            evidence !! i = Some sd
            /\ sd_metadata sd = metadata doc
            /\ sd_content sd = take 300 (page_content doc) ++ Py.u "..."
            /\ (length (sd_content sd) <= 303)%nat
            /\ ((length (page_content doc) <= 300)%nat ->
                sd_content sd = page_content doc ++ Py.u "..."))
  /\ (qa_chain = false
      \/ (exists e, qa_chain_call question = Err e)
      \/ (exists r, qa_chain_call question = Ok r /\ qa_answer r = None) ->
      evidence = []).
Proof.
  cbn zeta. unfold get_advice, get_advice_body. split.
  - intros r a -> Hr Ha. rewrite Hr. cbn [mbind result_bind rbind].
    rewrite Ha. cbn [mbind result_bind rbind source_documents default].
    unfold id. split; [apply List.length_map|].
    intros i doc Hi. exists (preview doc). split.
    + change (List.map preview) with (fmap (M := list) preview).
      by rewrite list_lookup_fmap, Hi.
    + split; [done|]. split; [done|]. split; [apply length_preview|].
      intros Hshort. simpl. by rewrite take_ge.
  - intros [->|[[e He]|(r & Hr & Ha)]].
    + by destruct (llm_invoke _).
    + destruct qa_chain; [by rewrite He|by destruct (llm_invoke _)].
    + destruct qa_chain; [rewrite Hr; simpl; by rewrite Ha|
                          by destruct (llm_invoke _)].
Qed.

Lemma get_advice_previews_witness :
  length
    (default []
       (source_documents
          (get_advice chain_one_document llm_answers true query_left_turn)))
  = length [long_document].
Proof.
  apply (proj1 (get_advice_previews chain_one_document llm_answers true
                  query_left_turn)
           (mkQAResult (Some (Py.u "answer")) (Some [long_document]))
           (Py.u "answer") eq_refl eq_refl eq_refl).
Defined.

(** X10: in a pass of the command-line loop on a request that is neither
    a quit word nor blank, advice is given exactly when the clarification
    chain raises or its reply contains the phrase for enough information;
    otherwise the reply is shown and no advice is asked for.  An advice
    shows at most two references, each preview of at most 103
    characters. *)
Theorem cli_turn_gate
    (clarification_run : str -> str -> result str)
    (qa_chain_call : str -> result QAResult) (llm_invoke : str -> result str)
    (lower : str -> str) (qa_chain : bool) (memory : list message)
    (user_input : str) :
  lower user_input ∉ quit_words ->
  Py.strip user_input <> [] ->
  match clarification_run user_input
          (Py.join nl (speaker_line <$> last_n 10 memory))
  with
  | Ok reply =>
    if Py.str_in enough_information reply
    then exists references,
      cli_turn clarification_run qa_chain_call llm_invoke lower qa_chain
        memory user_input
      = CliAdvice
          (answer (get_advice qa_chain_call llm_invoke qa_chain user_input))
          references
      /\ (length references <= 2)%nat
      /\ Forall (fun p => (length (snd p) <= 103)%nat) references
    else
      cli_turn clarification_run qa_chain_call llm_invoke lower qa_chain
        memory user_input
      = CliClarification reply
  | Err _ =>
    exists references,
      cli_turn clarification_run qa_chain_call llm_invoke lower qa_chain
        memory user_input
      = CliAdvice
          (answer (get_advice qa_chain_call llm_invoke qa_chain user_input))
          references
      /\ (length references <= 2)%nat
      /\ Forall (fun p => (length (snd p) <= 103)%nat) references
  end.
Proof.
  intros Hquit Hblank. unfold cli_turn.
  rewrite bool_decide_eq_false_2 by done.
  destruct (Py.strip user_input) as [|c0 rest0]; [done|].
  unfold analyze_situation.
  assert (forall sds : list SourceDocument,
            (length (cli_reference <$> take 2 sds) <= 2)%nat
            /\ Forall (fun p => (length (snd p) <= 103)%nat)
                 (cli_reference <$> take 2 sds)) as Hrefs.
  { intros sds. split; [rewrite length_fmap, length_take; lia|].
    apply Forall_fmap, Forall_forall. intros sd _. simpl.
    rewrite length_app, length_take.
    change (length (Py.u "...")) with 3%nat. lia. }
  destruct (clarification_run user_input _) as [reply|e]; simpl.
  - destruct (Py.str_in enough_information reply); simpl; [|done].
    eexists. split; [reflexivity|apply Hrefs].
  - eexists. split; [reflexivity|apply Hrefs].
Qed.

Lemma cli_turn_gate_witness :
  exists references,
    cli_turn clarification_down chain_down llm_answers (fun s => s) false []
      query_left_turn
    = CliAdvice
        (answer (get_advice chain_down llm_answers false query_left_turn))
        references
    /\ (length references <= 2)%nat
    /\ Forall (fun p => (length (snd p) <= 103)%nat) references.
Proof.
  apply (cli_turn_gate clarification_down chain_down llm_answers
           (fun s => s) false [] query_left_turn).
  - vm_compute. intros H. repeat (apply elem_of_cons in H as [H|H];
      [discriminate|]). by apply elem_of_nil in H.
  - vm_compute. discriminate.
Defined.

(** ** The Gemini client cannot be used *)

(** X11: with the repository's [Config] no Gemini client can be made or
    asked for its status.  The constructor raises for every environment:
    the [ValueError] of the missing key when [GOOGLE_API_KEY] is unset or
    empty, else the [AttributeError] of [GEMINI_MODEL].  And
    [check_api_status], on any client, sends its one test request without
    calling the wait and then raises that [AttributeError] out of the
    method, whatever the service answers. *)
Theorem GeminiClient_unusable
    (rt : Runtime) (key : option str) (generate_content : request -> result str)
    (c : GeminiClient rt) (w : GeminiWorld rt) :
  GeminiClient__init__ rt key
  = Err (if falsy (AText key)
         then ValueError (Py.u "GOOGLE_API_KEY가 설정되지 않았습니다.")
         else AttributeError "GEMINI_MODEL")
  /\ check_api_status rt key generate_content c w
     = (mkGeminiWorld rt (world_clock rt w) (StatusRequest :: requests rt w),
        Err (AttributeError "GEMINI_MODEL")).
Proof.
  split.
  - unfold GeminiClient__init__.
    change (Config_getattr key "GOOGLE_API_KEY") with (Ok (AText key)).
    cbn [mbind result_bind rbind]. destruct (falsy (AText key)); [done|].
    rewrite Config_getattr_GEMINI; [done|]. set_solver.
  - unfold check_api_status. rewrite Config_getattr_GEMINI by set_solver.
    cbn [mbind result_bind rbind]. by destruct (generate_content _).
Qed.

Example GeminiClient_with_key :
  GeminiClient__init__ runtime_Z (Some (Py.u "AIza-key"))
  = Err (AttributeError "GEMINI_MODEL")
  /\ snd (check_api_status runtime_Z (Some (Py.u "AIza-key")) service_up
            (mkGeminiClient runtime_Z 0 4) (mkGeminiWorld runtime_Z 1000 []))
     = Err (AttributeError "GEMINI_MODEL").
Proof. split; reflexivity. Qed.

(** ** The vector query and the safe build *)

(** X12: the vector query of the document processor never raises.  It
    returns no hit when the store cannot be opened or the query cannot be
    embedded; otherwise it returns as many hits as the collection has
    entries, up to [k], and a processor that had no store has loaded the
    default collection. *)
Theorem search_similar_cases_hits {vector : Type}
    (embed_query : str -> result vector) (distance : vector -> vector -> Z)
    (dir : PersistDir vector) (vectorstore : option string)
    (query : str) (k : nat) :
  (corrupted vector dir = true \/ (exists e, embed_query query = Err e) ->
   snd (search_similar_cases vector embed_query distance dir vectorstore
          query k) = [])
  /\ (corrupted vector dir = false ->
      forall q, embed_query query = Ok q ->
      fst (search_similar_cases vector embed_query distance dir vectorstore
             query k)
      = Some (default default_collection vectorstore)
      /\ length
           (snd (search_similar_cases vector embed_query distance dir
                   vectorstore query k))
         = (k `min`
              length
                (collection vector dir
                   (default default_collection vectorstore)))%nat).
Proof.
  split; [apply search_similar_cases_without_index|].
  intros Hc q Hq.
  pose proof (search_similar_cases_length embed_query distance dir
                (default default_collection vectorstore) query k q Hc Hq) as Hl.
  destruct vectorstore as [name|]; simpl in *.
  - split; [|done]. unfold search_similar_cases. rewrite Hc.
    by destruct (similarity_search_with_score _ _ _ _ _ _).
  - unfold search_similar_cases, load_vectorstore in *. rewrite Hc in *.
    split; [|done]. by destruct (similarity_search_with_score _ _ _ _ _ _).
Qed.

Lemma search_similar_cases_hits_witness :
  snd (search_similar_cases unit (fun _ => Ok tt) (fun _ _ => 0) broken_dir
         None query_left_turn 5) = [].
Proof.
  apply (search_similar_cases_hits (fun _ => Ok tt) (fun _ _ => 0) broken_dir
           None query_left_turn 5).
  left. reflexivity.
Defined.

Lemma from_documents_corrupted {vector} embed_documents after_failure
    (dir : PersistDir vector) name chunks :
  corrupted vector (fst (from_documents vector embed_documents after_failure
                           dir name chunks))
  = corrupted vector dir.
Proof.
  unfold from_documents. destruct (corrupted vector dir) eqn:Hc; [done|].
  destruct (embed_documents _) as [vectors|e]; [|done].
  by destruct (length vectors =? length chunks)%nat.
Qed.

(** X13: a safe build of a non-empty list of documents that reports
    failure and could write its backup file has stored the chunks there
    and has left the processor's store as it was; loading from the
    directory afterwards never comes back empty-handed: it returns the
    store or reports the backup. *)
Theorem build_vectorstore_safe_then_load {vector : Type}
    (embed_documents : list str -> result (list vector))
    (embed_query : str -> result vector) (distance : vector -> vector -> Z)
    (after_failure : list (Entry vector) -> list Document -> list (Entry vector))
    (backup_after_failure : option (list Document))
    (dir : PersistDir vector) (vectorstore : option string)
    (documents : list Document) :
  documents <> [] ->
  snd (build_vectorstore_safe_backup vector embed_documents after_failure
         true backup_after_failure dir vectorstore documents) = false ->
  let built :=
    build_vectorstore_safe_backup vector embed_documents after_failure
      true backup_after_failure dir vectorstore documents in
  backup_chunks vector (fst (fst built))
  = Some (text_splitter_split_documents documents)
  /\ snd (fst built) = vectorstore
  /\ snd (load_vectorstore_safe vector embed_query distance true
            (fst (fst built)) vectorstore) <> NotLoaded.
Proof.
  intros Hdocs Hfail. cbn zeta.
  unfold build_vectorstore_safe_backup in *.
  destruct documents as [|d0 ds] eqn:Hd; [done|]. rewrite <- Hd in *. clear Hd.
  destruct (from_documents vector embed_documents after_failure dir
              "traffic_accidents" (text_splitter_split_documents documents))
    as [dir1 [u|e]] eqn:Hfrom; [done|].
  cbn [fst snd]. split; [done|]. split; [done|].
  unfold load_vectorstore_safe. cbn [negb backup_chunks corrupted].
  destruct (corrupted vector dir1); [done|].
  by destruct (similarity_search_with_score _ _ _ _ _ _).
Qed.

Lemma build_vectorstore_safe_then_load_witness :
  snd (load_vectorstore_safe unit (fun _ => Ok tt) (fun _ _ => 0) true
         (fst (fst (build_vectorstore_safe_backup unit embed_all
                      (fun old _ => old) true None broken_dir None
                      [long_document])))
         None) <> NotLoaded.
Proof.
  apply (build_vectorstore_safe_then_load embed_all (fun _ => Ok tt)
           (fun _ _ => 0) (fun old _ => old) None broken_dir None
           [long_document]).
  - discriminate.
  - reflexivity.
Defined.

(** ** Building from the cases file *)




(** ** Loading the legal documents *)

Lemma load_pdf_loop_spec files :
  forall documents log,
    fst (load_pdf_loop files documents log) = documents ++ readable_pages files
    /\ length (List.filter is_log_error (snd (load_pdf_loop files documents log)))
       = (length (List.filter is_log_error log)
          + length (List.filter is_unreadable files))%nat.
Proof.
  induction files as [|[file_name [docs|e]] files IH]; intros documents log.
  - cbn [load_pdf_loop fst snd]. unfold readable_pages. simpl.
    rewrite app_nil_r. split; [done|lia].
  - cbn [load_pdf_loop]. edestruct IH as [Hd Hl]. rewrite Hd, Hl. clear Hd Hl.
    unfold readable_pages. cbn [flat_map fst snd List.filter is_unreadable].
    split; [by rewrite <- app_assoc|].
    rewrite List.filter_app, length_app. simpl. lia.
  - cbn [load_pdf_loop]. edestruct IH as [Hd Hl]. rewrite Hd, Hl. clear Hd Hl.
    unfold readable_pages. cbn [flat_map fst snd List.filter is_unreadable].
    split; [done|].
    rewrite List.filter_app, length_app. simpl. lia.
Qed.

Lemma readable_pages_metadata files :
  Forall
    (fun d =>
       metadata d !! "source" = Some (VStr (Py.u "legal_document"))
       /\ metadata d !! "type" = Some (VStr (Py.u "법률문서"))
       /\ exists f, In f files
                    /\ metadata d !! "file_name" = Some (VStr (fst f)))
    (readable_pages files).
Proof.
  induction files as [|[file_name [docs|e]] files IH]; [constructor| |].
  - unfold readable_pages. simpl. apply Forall_app. split.
    + apply Forall_fmap, Forall_true. intros d. simpl.
      unfold legal_metadata. split; [by rewrite lookup_insert_eq|]. split.
      * by rewrite !lookup_insert_ne, lookup_insert_eq by done.
      * exists (file_name, Ok docs). split; [by left|].
        by rewrite lookup_insert_ne, lookup_insert_eq by done.
    + eapply Forall_impl; [exact IH|]. intros d (Hs & Ht & f & Hf & Hn).
      split; [done|]. split; [done|]. exists f. split; [by right|done].
  - unfold readable_pages. simpl. eapply Forall_impl; [exact IH|].
    intros d (Hs & Ht & f & Hf & Hn).
    split; [done|]. split; [done|]. exists f. split; [by right|done].
Qed.

(** X15: a PDF that cannot be read costs only its own pages.  The loader
    returns the pages of every readable file, in directory order, each
    tagged as a legal document with the name of its file (whatever the
    PDF reader had put under these keys), and logs exactly one error per
    unreadable file. *)
Theorem load_pdf_documents_skips_unreadable (pdf_directory : str)
    (files : list (str * result (list Document))) :
  fst (load_pdf_documents pdf_directory (Some files)) = readable_pages files
  /\ Forall
       (fun d =>
          metadata d !! "source" = Some (VStr (Py.u "legal_document"))
          /\ metadata d !! "type" = Some (VStr (Py.u "법률문서"))
          /\ exists f, In f files
                       /\ metadata d !! "file_name" = Some (VStr (fst f)))
       (fst (load_pdf_documents pdf_directory (Some files)))
  /\ length (List.filter is_log_error
               (snd (load_pdf_documents pdf_directory (Some files))))
     = length (List.filter is_unreadable files).
Proof.
  unfold load_pdf_documents.
  destruct (load_pdf_loop_spec files [] []) as [Hd Hl].
  destruct (load_pdf_loop files [] []) as [documents log]. simpl in *.
  subst documents. split; [done|]. split; [apply readable_pages_metadata|].
  rewrite List.filter_app, length_app, Hl. simpl. lia.
Qed.

(** ** The chunker: the size bound *)

Lemma join_nil parts : Py.join [] parts = concat parts.
Proof.
  induction parts as [|p parts IH]; [done|].
  destruct parts as [|q parts]; [simpl; by rewrite app_nil_r|].
  change (Py.join [] (p :: q :: parts))
    with (p ++ [] ++ Py.join [] (q :: parts)).
  by rewrite IH.
Qed.

Lemma lstrip_length s : (length (Py.lstrip s) <= length s)%nat.
Proof.
  induction s as [|c s IH]; simpl; [lia|].
  destruct (Py.isspace c); simpl; lia.
Qed.

Lemma strip_len s : Splitter.len (Py.strip s) <= Splitter.len s.
Proof.
  unfold Splitter.len, Py.strip, Py.rstrip. rewrite length_rev.
  pose proof (lstrip_length (rev (Py.lstrip s))) as H1.
  rewrite length_rev in H1. pose proof (lstrip_length s). lia.
Qed.

Section ChunkBound.

Variable chunk_size chunk_overlap : Z.
Hypothesis chunk_size_pos : 1 <= chunk_size.

Lemma drop_front_bound _len current_doc :
  forall total,
    total = Splitter.len (concat current_doc) ->
    fst (Splitter.drop_front chunk_size chunk_overlap 0 _len total
           current_doc)
    = Splitter.len
        (concat (snd (Splitter.drop_front chunk_size chunk_overlap 0 _len
                        total current_doc)))
    /\ (fst (Splitter.drop_front chunk_size chunk_overlap 0 _len total
               current_doc) + _len <= chunk_size
        \/ fst (Splitter.drop_front chunk_size chunk_overlap 0 _len total
                  current_doc) = 0).
Proof.
  induction current_doc as [|d0 rest IH]; intros total Htotal.
  - simpl. split; [done|]. by right.
  - cbn [Splitter.drop_front].
    destruct ((chunk_overlap <? total)
              || ((chunk_size <? total + _len + 0) && (0 <? total))) eqn:Hc.
    + rewrite if_same. apply IH. rewrite Htotal. simpl concat.
      rewrite len_app. lia.
    + cbn [fst snd]. split; [done|].
      apply orb_false_iff in Hc as [_ Hc].
      pose proof (len_nonneg (concat (d0 :: rest))) as Hn.
      apply andb_false_iff in Hc as [Hc|Hc]; apply Z.ltb_ge in Hc.
      * left. lia.
      * right. lia.
Qed.

Lemma append_doc_join_bound docs current_doc :
  chunks_within chunk_size docs ->
  Splitter.len (concat current_doc) <= chunk_size ->
  chunks_within chunk_size
    (Splitter.append_doc docs (Splitter._join_docs current_doc [])).
Proof.
  intros Hdocs Hcur. unfold Splitter._join_docs. rewrite join_nil.
  pose proof (strip_len (concat current_doc)) as Hs.
  destruct (Py.strip (concat current_doc)) as [|c t] eqn:Heq; [done|].
  simpl. apply Forall_app. split; [done|]. constructor; [lia|constructor].
Qed.

Lemma merge_loop_bound splits :
  chunks_within chunk_size splits ->
  forall docs current_doc total,
    total = Splitter.len (concat current_doc) ->
    total <= chunk_size ->
    chunks_within chunk_size docs ->
    chunks_within chunk_size
      (fst (fst (Splitter.merge_loop chunk_size chunk_overlap [] splits docs
                   current_doc total)))
    /\ Splitter.len
         (concat (snd (fst (Splitter.merge_loop chunk_size chunk_overlap []
                              splits docs current_doc total))))
       <= chunk_size.
Proof.
  induction 1 as [|d splits Hd _ IH]; intros docs current_doc total Htotal
    Hfit Hdocs.
  - simpl. split; [done|]. by rewrite <- Htotal.
  - cbn [Splitter.merge_loop]. change (Splitter.len (@nil N)) with 0.
    rewrite if_same.
    pose proof (len_nonneg d) as Hdn.
    destruct (chunk_size <? total + Splitter.len d + 0) eqn:Hc.
    + destruct current_doc as [|c0 cd].
      * change (Splitter.len (concat [])) with 0 in Htotal. subst total.
        unfold chunks_within in Hd. rewrite if_same.
        apply IH; [|lia|done].
        simpl. rewrite app_nil_r. lia.
      * pose proof (drop_front_bound (Splitter.len d) (c0 :: cd) total Htotal)
          as [Ht Hor].
        destruct (Splitter.drop_front chunk_size chunk_overlap 0
                    (Splitter.len d) total (c0 :: cd)) as [total' current']
          eqn:Hdrop.
        cbn [fst snd] in Ht, Hor. rewrite if_same.
        assert (Hsum : total' + Splitter.len d + 0
                       = Splitter.len (concat (current' ++ [d]))).
        { rewrite concat_app, len_app. simpl. rewrite app_nil_r. lia. }
        apply IH; [done| |].
        -- destruct Hor; lia.
        -- apply append_doc_join_bound; [done|]. by rewrite <- Htotal.
    + apply Z.ltb_ge in Hc. rewrite if_same. apply IH; [|lia|done].
      rewrite concat_app, len_app. simpl. rewrite app_nil_r. lia.
Qed.

Lemma _merge_splits_bound splits :
  chunks_within chunk_size splits ->
  chunks_within chunk_size
    (Splitter._merge_splits chunk_size chunk_overlap splits []).
Proof.
  intros Hs. unfold Splitter._merge_splits.
  destruct (merge_loop_bound splits Hs [] [] 0) as [Hdocs Hcur];
    [done|lia|constructor|].
  destruct (Splitter.merge_loop _ _ _ _ _ _ _) as [[docs current_doc] total].
  by apply append_doc_join_bound.
Qed.

Lemma flush_bound final_chunks _good_splits :
  chunks_within chunk_size final_chunks ->
  chunks_within chunk_size _good_splits ->
  chunks_within chunk_size
    (Splitter.flush chunk_size chunk_overlap final_chunks _good_splits).
Proof.
  intros Hf Hg. unfold Splitter.flush.
  destruct _good_splits as [|g gs] eqn:Heq; [done|]. rewrite <- Heq in *.
  apply Forall_app. split; [done|]. by apply _merge_splits_bound.
Qed.

Lemma split_loop_bound recurse splits :
  match recurse with
  | Some f => forall s, chunks_within chunk_size (f s)
  | None => chunks_within chunk_size splits
  end ->
  forall final_chunks _good_splits,
    chunks_within chunk_size final_chunks ->
    chunks_within chunk_size _good_splits ->
    chunks_within chunk_size
      (Splitter.split_loop chunk_size chunk_overlap recurse splits
         final_chunks _good_splits).
Proof.
  induction splits as [|s rest IH]; intros Hrec final good Hf Hg;
    cbn [Splitter.split_loop].
  - by apply flush_bound.
  - assert (Hrest : match recurse with
                    | Some f => forall s, chunks_within chunk_size (f s)
                    | None => chunks_within chunk_size rest
                    end).
    { destruct recurse; [done|]. by inversion Hrec. }
    destruct (Splitter.len s <? chunk_size) eqn:Hs.
    + apply Z.ltb_lt in Hs. apply IH; [done|done|].
      apply Forall_app. split; [done|]. constructor; [lia|constructor].
    + apply IH; [done| |constructor].
      pose proof (flush_bound final good Hf Hg) as Hfl.
      destruct recurse as [f|].
      * apply Forall_app. split; [done|]. apply Hrec.
      * apply Forall_app. split; [done|].
        constructor; [by inversion Hrec|constructor].
Qed.

Lemma _split_text_bound separators :
  In [] separators ->
  forall text,
    chunks_within chunk_size
      (Splitter._split_text chunk_size chunk_overlap separators text).
Proof.
  induction separators as [|_s later IH]; [done|]. intros Hin text.
  cbn [Splitter._split_text]. destruct _s as [|c0 _s].
  - cbn [Splitter.nonempty negb]. apply split_loop_bound; [|constructor..].
    unfold Splitter._split_text_with_regex.
    apply List.Forall_forall. intros piece Hp.
    apply List.filter_In in Hp as [Hp _].
    apply List.in_map_iff in Hp as (c & <- & _).
    change (Splitter.len [c]) with 1. lia.
  - cbn [Splitter.nonempty negb].
    assert (Hlater : In [] later) by (by destruct Hin).
    destruct (Py.str_in (c0 :: _s) text).
    + apply split_loop_bound; [|constructor..].
      destruct later; [done|]. intros s. by apply IH.
    + destruct later; [done|]. by apply IH.
Qed.

End ChunkBound.

(** X16: no chunk handed to the embedding service is longer than the
    configured 1000 characters, whatever the documents are, and every
    chunk carries the metadata of a document it was cut from. *)
Theorem split_documents_within_chunk_size (documents : list Document) :
  Forall
    (fun chunk =>
       Splitter.len (page_content chunk) <= 1000
       /\ exists doc, In doc documents /\ metadata chunk = metadata doc)
    (text_splitter_split_documents documents).
Proof.
  unfold text_splitter_split_documents, Splitter.split_documents.
  induction documents as [|doc documents IH]; [constructor|].
  simpl. apply Forall_app. split.
  - apply List.Forall_forall. intros chunk Hc.
    apply List.in_map_iff in Hc as (text & <- & Ht). simpl. split.
    + assert (H : chunks_within 1000
                    (Splitter.split_text 1000 200 (page_content doc))).
      { apply _split_text_bound; [lia|]. unfold Splitter.separators.
        simpl. tauto. }
      eapply List.Forall_forall in H; [exact H|done].
    + exists doc. split; [by left|done].
  - eapply Forall_impl; [exact IH|]. intros chunk (Hl & d & Hd & Hm).
    split; [done|]. exists d. split; [by right|done].
Qed.

(** ** The chunker: texts shorter than a chunk *)

Lemma startswith_spec p :
  forall s, Py.startswith p s = true -> s = p ++ drop (length p) s.
Proof.
  induction p as [|a p IH]; intros s Hs; [done|].
  destruct s as [|b s]; [done|]. simpl in Hs.
  apply andb_true_iff in Hs as [Hab Hs]. apply N.eqb_eq in Hab. subst b.
  simpl. f_equal. by apply IH.
Qed.

Lemma re_split_concat sep text :
  sep <> [] ->
  forall skip cur,
    concat (Splitter.re_split sep text skip cur) = rev cur ++ drop skip text.
Proof.
  intros Hsep. induction text as [|c text IH]; intros skip cur.
  - simpl. by rewrite drop_nil.
  - cbn [Splitter.re_split]. destruct skip as [|k]; [|by rewrite IH].
    destruct (Py.startswith sep (c :: text)) eqn:Hs.
    + cbn [concat]. rewrite IH. cbn [rev app]. f_equal.
      destruct sep as [|a sep]; [done|]. simpl in Hs.
      apply andb_true_iff in Hs as [Hab Hs]. apply N.eqb_eq in Hab. subst a.
      simpl. rewrite Nat.sub_0_r. f_equal. symmetry. by apply startswith_spec.
    + rewrite IH. simpl. by rewrite <- app_assoc.
Qed.

Lemma pair_up_concat l :
  concat (Splitter.pair_up l) = concat l
  /\ forall a, concat (Splitter.pair_up (a :: l)) = concat (a :: l).
Proof.
  induction l as [|b l [IH1 IH2]]; [done|]. split; [apply IH2|].
  intros a. simpl. by rewrite IH1, app_assoc.
Qed.

Lemma filter_nonempty_concat (l : list str) :
  concat (List.filter Splitter.nonempty l) = concat l.
Proof.
  induction l as [|a l IH]; [done|]. destruct a; simpl; by rewrite IH.
Qed.

Lemma _split_text_with_regex_concat text separator :
  concat (Splitter._split_text_with_regex text separator) = text.
Proof.
  unfold Splitter._split_text_with_regex. rewrite filter_nonempty_concat.
  destruct separator as [|c0 separator].
  - induction text as [|c text IH]; [done|]. simpl. by rewrite IH.
  - pose proof (re_split_concat (c0 :: separator) text ltac:(done) 0%nat [])
      as H.
    destruct (Splitter.re_split _ _ _ _) as [|first others]; [done|].
    simpl in *. by rewrite (proj1 (pair_up_concat others)).
Qed.

Lemma len_elem_concat (s : str) (l : list str) :
  In s l -> Splitter.len s <= Splitter.len (concat l).
Proof.
  induction l as [|a l IH]; [done|]. intros [->|Hin]; simpl; rewrite len_app.
  - pose proof (len_nonneg (concat l)). lia.
  - pose proof (len_nonneg a). specialize (IH Hin). lia.
Qed.

Section ShortText.

Variable chunk_size chunk_overlap : Z.

Lemma merge_loop_all_fit splits :
  forall docs current_doc total,
    total + Splitter.len (concat splits) <= chunk_size ->
    fst (Splitter.merge_loop chunk_size chunk_overlap [] splits docs
           current_doc total)
    = (docs, current_doc ++ splits).
Proof.
  induction splits as [|d splits IH]; intros docs current_doc total Hfit.
  - simpl. by rewrite app_nil_r.
  - cbn [Splitter.merge_loop]. change (Splitter.len (@nil N)) with 0.
    simpl concat in Hfit. rewrite len_app in Hfit.
    pose proof (len_nonneg (concat splits)) as Hn.
    rewrite if_same.
    replace (chunk_size <? total + Splitter.len d + 0) with false
      by (symmetry; apply Z.ltb_ge; lia).
    rewrite if_same, IH by lia. by rewrite <- app_assoc.
Qed.

Lemma split_loop_all_good recurse splits :
  Forall (fun s => Splitter.len s < chunk_size) splits ->
  forall final_chunks _good_splits,
    Splitter.split_loop chunk_size chunk_overlap recurse splits final_chunks
      _good_splits
    = Splitter.flush chunk_size chunk_overlap final_chunks
        (_good_splits ++ splits).
Proof.
  induction 1 as [|s splits Hs _ IH]; intros final good.
  - simpl. by rewrite app_nil_r.
  - cbn [Splitter.split_loop]. apply Z.ltb_lt in Hs. rewrite Hs, IH.
    by rewrite <- app_assoc.
Qed.

Lemma split_loop_short recurse text separator :
  Splitter.len text < chunk_size ->
  Splitter.split_loop chunk_size chunk_overlap recurse
    (Splitter._split_text_with_regex text separator) [] []
  = match Py.strip text with [] => [] | chunk => [chunk] end.
Proof.
  intros Hshort.
  pose proof (_split_text_with_regex_concat text separator) as Hcat.
  rewrite split_loop_all_good.
  - simpl app. unfold Splitter.flush.
    destruct (Splitter._split_text_with_regex text separator)
      as [|p ps] eqn:Hp.
    + simpl in Hcat. by subst text.
    + rewrite <- Hp in *. clear Hp. unfold Splitter._merge_splits.
      pose proof (merge_loop_all_fit
                    (Splitter._split_text_with_regex text separator) [] [] 0)
        as Hm.
      rewrite Hcat in Hm. specialize (Hm ltac:(lia)).
      destruct (Splitter.merge_loop _ _ _ _ _ _ _)
        as [[docs current_doc] total].
      simpl in Hm. injection Hm as -> ->.
      unfold Splitter._join_docs. rewrite join_nil, Hcat.
      by destruct (Py.strip text).
  - apply List.Forall_forall. intros s Hs.
    pose proof (len_elem_concat s _ Hs) as Hle. rewrite Hcat in Hle. lia.
Qed.

Lemma _split_text_short separators :
  separators <> [] ->
  forall text,
    Splitter.len text < chunk_size ->
    Splitter._split_text chunk_size chunk_overlap separators text
    = match Py.strip text with [] => [] | chunk => [chunk] end.
Proof.
  induction separators as [|_s later IH]; [done|]. intros _ text Hshort.
  cbn [Splitter._split_text].
  destruct (negb (Splitter.nonempty _s)); [by apply split_loop_short|].
  destruct (Py.str_in _s text); [by apply split_loop_short|].
  destruct later as [|l0 later]; [by apply split_loop_short|].
  by apply IH.
Qed.

End ShortText.

Lemma lstrip_app_nonspace a c :
  Py.isspace c = false -> Py.lstrip (a ++ [c]) = Py.lstrip a ++ [c].
Proof.
  intros Hc. induction a as [|a0 a IH]; simpl; [by rewrite Hc|].
  by destruct (Py.isspace a0).
Qed.

Lemma rstrip_cons_nonspace c t :
  Py.isspace c = false -> Py.rstrip (c :: t) = c :: Py.rstrip t.
Proof.
  intros Hc. unfold Py.rstrip. simpl rev.
  by rewrite lstrip_app_nonspace, rev_app_distr.
Qed.

Lemma lstrip_cases s :
  Py.lstrip s = []
  \/ exists c t, Py.lstrip s = c :: t /\ Py.isspace c = false.
Proof.
  induction s as [|c s IH]; [by left|]. simpl.
  destruct (Py.isspace c) eqn:Hc; [done|]. right. by exists c, s.
Qed.

Lemma lstrip_idem s : Py.lstrip (Py.lstrip s) = Py.lstrip s.
Proof.
  induction s as [|c s IH]; [done|]. simpl.
  destruct (Py.isspace c) eqn:Hc; [done|]. simpl. by rewrite Hc.
Qed.

Lemma strip_idem s : Py.strip (Py.strip s) = Py.strip s.
Proof.
  unfold Py.strip.
  destruct (lstrip_cases s) as [H|(c & t & H & Hc)]; rewrite H; [done|].
  rewrite rstrip_cons_nonspace by done. simpl Py.lstrip. rewrite Hc.
  rewrite rstrip_cons_nonspace by done. f_equal.
  unfold Py.rstrip. by rewrite rev_involutive, lstrip_idem.
Qed.

Lemma strip_nonempty s c t :
  Py.lstrip s = c :: t -> Py.isspace c = false -> Py.strip s <> [].
Proof.
  intros H Hc. unfold Py.strip. by rewrite H, rstrip_cons_nonspace.
Qed.

Lemma Ok_inj {A} (x y : A) : Ok x = Ok y -> x = y.
Proof. by intros [= ->]. Qed.

Lemma case_type_label : exists t, Py.u "사고 유형: " = 49324%N :: t.
Proof. eexists. vm_compute. reflexivity. Qed.

Lemma case_content_stripped case content :
  case_content case = Ok content ->
  Py.strip content = content /\ content <> [].
Proof.
  unfold case_content. intros H.
  destruct (getitem case "case_id") as [v1|]; [|done].
  destruct (getitem case "vehicle_A_situation") as [v2|]; [|done].
  destruct (getitem case "vehicle_B_situation") as [v3|]; [|done].
  destruct (getitem case "accident_description") as [v4|]; [|done].
  destruct (getitem case "fault_ratio") as [v5|]; [|done].
  cbn [mbind result_bind rbind] in H. apply Ok_inj in H. subst content.
  split; [apply strip_idem|].
  destruct case_type_label as [t Ht]. rewrite Ht.
  by eapply (strip_nonempty _ 49324%N).
Qed.

Lemma case_document_content case doc :
  case_document case = Ok doc ->
  Py.strip (page_content doc) = page_content doc /\ page_content doc <> [].
Proof.
  unfold case_document. intros H.
  destruct (case_content case) as [content|] eqn:Hcontent; [|done].
  destruct (getitem case "case_id") as [v1|]; [|done].
  destruct (getitem case "fault_ratio") as [v5|]; [|done].
  cbn [mbind result_bind rbind] in H. injection H as <-.
  by apply case_content_stripped in Hcontent.
Qed.

(** X17: a corpus whose canonical texts are all shorter than a chunk is
    indexed one entry per record: chunking the loaded documents gives
    back these very documents, text and metadata unchanged, in corpus
    order. *)
Theorem short_cases_one_chunk_each (cases : list dict) :
  Forall has_fields cases ->
  forallb (fun doc => Splitter.len (page_content doc) <? 1000)
    (fst (load_accident_cases (Ok cases))) = true ->
  text_splitter_split_documents (fst (load_accident_cases (Ok cases)))
  = fst (load_accident_cases (Ok cases)).
Proof.
  intros Hgood. unfold load_accident_cases. simpl.
  destruct (load_loop_ok _ Hgood []) as (docs & Hl & Hdocs). rewrite Hl.
  simpl. clear Hl Hgood.
  induction Hdocs as [|case doc cases docs Hdoc _ IH]; [done|].
  simpl. intros Hshort. apply andb_true_iff in Hshort as [Hlen Hshort].
  apply Z.ltb_lt in Hlen.
  unfold text_splitter_split_documents, Splitter.split_documents in *.
  simpl. rewrite IH by done. unfold Splitter.split_text.
  rewrite _split_text_short by done.
  destruct (case_document_content _ _ Hdoc) as [Hstrip Hne].
  rewrite Hstrip. destruct doc as [content meta]. simpl in *.
  by destruct content.
Qed.

Lemma short_cases_one_chunk_each_witness :
  text_splitter_split_documents (fst (load_accident_cases (Ok corpus_A1)))
  = fst (load_accident_cases (Ok corpus_A1)).
Proof.
  apply (short_cases_one_chunk_each corpus_A1).
  - repeat constructor; vm_compute; eauto.
  - vm_compute. reflexivity.
Defined.

(** ** The summary of an image analysis *)

Lemma summary_inv_section summary section key :
  key ∈ summary_keys -> summary_inv summary section -> summary_inv summary key.
Proof. intros Hk (Hd & _ & Hv). split; [done|]. split; [by right|done]. Qed.

Lemma summary_step_inv summary section line :
  summary_inv summary section ->
  exists summary' section',
    summary_step summary section line = Ok (summary', section')
    /\ summary_inv summary' section'.
Proof.
  intros Hinv. unfold summary_step.
  destruct (_ || _);
    [eexists _, _; split; [done|];
     eapply summary_inv_section; [|done]; unfold summary_keys; set_solver|].
  destruct (_ && _);
    [eexists _, _; split; [done|];
     eapply summary_inv_section; [|done]; unfold summary_keys; set_solver|].
  destruct (_ || _);
    [eexists _, _; split; [done|];
     eapply summary_inv_section; [|done]; unfold summary_keys; set_solver|].
  destruct (_ || _);
    [eexists _, _; split; [done|];
     eapply summary_inv_section; [|done]; unfold summary_keys; set_solver|].
  destruct (_ || _);
    [eexists _, _; split; [done|];
     eapply summary_inv_section; [|done]; unfold summary_keys; set_solver|].
  destruct (_ && _ && _) eqn:Hc; [|by eexists _, _].
  apply andb_true_iff in Hc as [Hc _]. apply andb_true_iff in Hc as [Hne Hs].
  destruct Hinv as (Hd & Hsec & Hv).
  destruct Hsec as [->|Hsec]; [done|].
  assert (Hin : section ∈ dom summary) by (by rewrite Hd).
  apply elem_of_dom in Hin as [value Hvalue]. rewrite Hvalue.
  assert (Hdom : forall v, dom (<[section := v]> summary) = summary_keys).
  { intros v. rewrite dom_insert_L, <- Hd.
    apply elem_of_dom_2 in Hvalue. apply subseteq_union_1_L.
    by apply singleton_subseteq_l. }
  destruct (bool_decide (value = placeholder)).
  - eexists _, _. split; [done|]. split; [apply Hdom|]. split; [by right|].
    apply map_Forall_insert_2; [|done]. by destruct (Py.strip line).
  - eexists _, _. split; [done|]. split; [apply Hdom|]. split; [by right|].
    apply map_Forall_insert_2; [|done].
    specialize (Hv _ _ Hvalue). simpl in Hv. by destruct value.
Qed.

Lemma summary_loop_inv lines :
  forall summary section,
    summary_inv summary section ->
    exists summary',
      summary_loop lines summary section = Ok summary'
      /\ dom summary' = summary_keys
      /\ map_Forall (fun _ value => value <> []) summary'.
Proof.
  induction lines as [|line lines IH]; intros summary section Hinv.
  - exists summary. destruct Hinv as (Hd & _ & Hv). by repeat split.
  - cbn [summary_loop].
    destruct (summary_step_inv summary section line Hinv)
      as (summary1 & section1 & Hstep & Hinv1).
    rewrite Hstep. by apply IH.
Qed.

Lemma initial_summary_inv : summary_inv initial_summary EmptyString.
Proof.
  split; [|split; [by left|]].
  - unfold initial_summary, summary_keys. rewrite !dom_insert_L, dom_empty_L.
    by rewrite (right_id_L ∅ (∪)), !(assoc_L (∪)).
  - unfold initial_summary.
    repeat (apply map_Forall_insert_2; [by vm_compute|]).
    apply map_Forall_empty.
Qed.

(** X18: the summary of an image analysis never takes its error branch:
    for every analysis text the parser ends normally with a summary that
    has exactly the five fields, none of them empty. *)
Theorem get_analysis_summary_fields (analysis_text : str) :
  parse_analysis analysis_text = Ok (get_analysis_summary analysis_text)
  /\ dom (get_analysis_summary analysis_text) = summary_keys
  /\ map_Forall (fun _ value => value <> [])
       (get_analysis_summary analysis_text).
Proof.
  unfold get_analysis_summary.
  assert (H : exists summary,
             parse_analysis analysis_text = Ok summary
             /\ dom summary = summary_keys
             /\ map_Forall (fun _ value => value <> []) summary).
  { unfold parse_analysis. destruct analysis_text as [|c text].
    - exists initial_summary. destruct initial_summary_inv as (Hd & _ & Hv).
      by repeat split.
    - apply summary_loop_inv, initial_summary_inv. }
  destruct H as (summary & -> & Hd & Hv). by repeat split.
Qed.

Example get_analysis_summary_two_sections :
  get_analysis_summary analysis_two_sections !! "accident_type"
  = Some (Py.u "추돌 후방")
  /\ get_analysis_summary analysis_two_sections !! "road_condition"
     = Some (Py.u "교차로")
  /\ get_analysis_summary analysis_two_sections !! "damage"
     = Some placeholder.
Proof. vm_compute. by repeat split. Qed.
